(** * photolyze: extraction of Camera Raw editing metadata (analyze.py)

    A shallow embedding of [parse_xmp], [extract_editing_metadata] and the
    script entry point, together with the parts of the Python runtime they
    rest on: [bytes.decode('utf-8', errors=...)], the element trees of
    [xml.etree.ElementTree] with the three path look-ups the program uses,
    insertion-ordered dictionaries, [print], and exceptions.

    Python [str] values are held in Rocq strings (for text that is not
    ASCII, the string holds the UTF-8 encoding of the text). *)

From Stdlib Require Import List String Ascii Strings.Byte NArith PeanoNat Bool Lia.
Import ListNotations.
Open Scope string_scope.

(** ** Exceptions, standard output, and the monad threading both *)

Module Py.

(** Exception classes the program can meet.  All of them derive from
    [Exception]; [ParseError] is [xml.etree.ElementTree.ParseError]. *)
Inductive exn_class :=
| ParseError
| UnicodeDecodeError
| IndexError
| OtherException (name : string).

Record exn := Exn { exn_type : exn_class; exn_str : string }.

Definition is_ParseError (e : exn) : bool :=
  match exn_type e with ParseError => true | _ => false end.

(** What a call leaves behind: it returns a value or raises. *)
Inductive outcome (A : Type) :=
| Return (a : A)
| Raise (e : exn).
Arguments Return {A} a.
Arguments Raise {A} e.

(** A computation: the lines it printed, oldest first, and its outcome. *)
Definition M (A : Type) : Type := list string * outcome A.

Definition ret {A} (a : A) : M A := ([], Return a).
Definition raise {A} (e : exn) : M A := ([], Raise e).
Definition print (line : string) : M unit := ([line], Return tt).

Definition bind {A B} (m : M A) (k : A -> M B) : M B :=
  match m with
  | (out, Return a) => let (out', r) := k a in ((out ++ out')%list, r)
  | (out, Raise e) => (out, Raise e)
  end.

(** [try: m  except <class accepted by catches> as e: handler e] *)
Definition try_except {A} (m : M A) (catches : exn -> bool) (handler : exn -> M A) : M A :=
  match m with
  | (out, Raise e) =>
      if catches e then let (out', r) := handler e in ((out ++ out')%list, r)
      else (out, Raise e)
  | done => done
  end.

(** [except Exception]: every modelled class is a subclass of [Exception]. *)
Definition is_Exception (e : exn) : bool := true.

Definition lift_result {A} (r : exn + A) : M A :=
  match r with inl e => raise e | inr a => ret a end.

End Py.
Import Py.

Notation "x <- m ;; k" := (bind m (fun x => k))
  (at level 61, m at next level, right associativity).
Notation "m ;;; k" := (bind m (fun _ => k))
  (at level 61, right associativity).

(** ** [bytes.decode('utf-8', errors)] *)

Module Utf8.

Inductive errors := strict | replace.

(** U+FFFD REPLACEMENT CHARACTER, in UTF-8: EF BF BD. *)
Definition replacement_character : string :=
  String (ascii_of_byte xef) (String (ascii_of_byte xbf) (String (ascii_of_byte xbd) "")).

Definition in_range (lo hi : N) (b : byte) : bool :=
  (N.leb lo (Byte.to_N b) && N.leb (Byte.to_N b) hi)%bool.

Definition expect (n : nat) (l u : N) : option (nat * N * N) := Some (n, l, u).

(** For a lead byte: how many continuation bytes are due after the next
    one, and the range the next one must lie in (the ranges exclude overlong
    forms, surrogates and code points above U+10FFFF).  [None] for a byte
    that cannot start a sequence (80..C1 and F5..FF). *)
Definition lead (b : byte) : option (nat * N * N) :=
  let n := Byte.to_N b in
  if N.ltb n 194 then None
  else if N.leb n 223 then expect 0 128 191
  else if N.eqb n 224 then expect 1 160 191
  else if N.leb n 236 then expect 1 128 191
  else if N.eqb n 237 then expect 1 128 159
  else if N.leb n 239 then expect 1 128 191
  else if N.eqb n 240 then expect 2 144 191
  else if N.leb n 243 then expect 2 128 191
  else if N.eqb n 244 then expect 2 128 143
  else None.

(** A sequence under way: [more] continuation bytes are still due after the
    next one, the next byte must lie in [lo, hi], [seen] holds the bytes of
    the sequence read so far. *)
Record pending := Pending { more : nat; lo : N; hi : N; seen : string }.

Definition emit (s : string) (r : exn + string) : exn + string :=
  match r with inr t => inr (s ++ t) | inl e => inl e end.

(** The error handler: ['strict'] raises (the message is abridged: the
    offending byte and its position are left out), ['replace'] puts U+FFFD
    in place of the ill-formed bytes and goes on. *)
Definition on_error (h : errors) (reason : string) (go_on : exn + string) : exn + string :=
  match h with
  | strict => inl (Exn UnicodeDecodeError ("'utf-8' codec can't decode bytes: " ++ reason))
  | replace => emit replacement_character go_on
  end.

Definition one (b : byte) : string := String (ascii_of_byte b) "".

(** Reading byte [b] at the start of a sequence; [after p] decodes the
    bytes that follow [b] from state [p]. *)
Definition start (h : errors) (b : byte) (after : option pending -> exn + string)
  : exn + string :=
  if N.ltb (Byte.to_N b) 128 then emit (one b) (after None)
  else match lead b with
       | Some (n, l, u) => after (Some (Pending n l u (one b)))
       | None => on_error h "invalid start byte" (after None)
       end.

(** Reading byte [b] inside the sequence [q].  An ill-formed sequence ends
    at the first byte that cannot continue it; that byte is then read
    afresh as the start of a sequence. *)
Definition continue (h : errors) (q : pending) (b : byte)
    (after : option pending -> exn + string) : exn + string :=
  if in_range (lo q) (hi q) b then
    match more q with
    | O => emit (seen q ++ one b) (after None)
    | S n => after (Some (Pending n 128 191 (seen q ++ one b)))
    end
  else on_error h "invalid continuation byte" (start h b after).

Fixpoint decode_from (h : errors) (p : option pending) (bs : list byte) : exn + string :=
  match bs with
  | [] =>
      match p with
      | None => inr ""
      | Some _ => on_error h "unexpected end of data" (inr "")
      end
  | b :: rest =>
      let after := fun p' => decode_from h p' rest in
      match p with
      | None => start h b after
      | Some q => continue h q b after
      end
  end.

Definition decode (bs : list byte) (h : errors) : exn + string :=
  decode_from h None bs.

(** The text [bs.decode('utf-8', errors='replace')] evaluates to. *)
Definition decoded (bs : list byte) : string :=
  match decode bs replace with inr s => s | inl _ => "" end.

(** [r] occurs in [s]. *)
Definition occurs (r s : string) : Prop :=
  exists before after, s = before ++ r ++ after.

(** *** What replacing means, after the Unicode standard *)

Definition between (lo hi : N) (b : byte) : bool :=
  (N.leb lo (Byte.to_N b) && N.leb (Byte.to_N b) hi)%bool.

(** The well-formed UTF-8 byte sequences of one code point (The Unicode
    Standard, table 3-7). *)
Definition code_point (c : list byte) : bool :=
  match c with
  | [b1] => N.leb (Byte.to_N b1) 127
  | [b1; b2] =>
      (N.leb 194 (Byte.to_N b1) && N.leb (Byte.to_N b1) 223) && between 128 191 b2
  | [b1; b2; b3] =>
      (N.eqb (Byte.to_N b1) 224 && between 160 191 b2
       || (N.leb 225 (Byte.to_N b1) && N.leb (Byte.to_N b1) 236) && between 128 191 b2
       || N.eqb (Byte.to_N b1) 237 && between 128 159 b2
       || (N.leb 238 (Byte.to_N b1) && N.leb (Byte.to_N b1) 239) && between 128 191 b2)
      && between 128 191 b3
  | [b1; b2; b3; b4] =>
      (N.eqb (Byte.to_N b1) 240 && between 144 191 b2
       || (N.leb 241 (Byte.to_N b1) && N.leb (Byte.to_N b1) 243) && between 128 191 b2
       || N.eqb (Byte.to_N b1) 244 && between 128 143 b2)
      && between 128 191 b3 && between 128 191 b4
  | _ => false
  end%bool.

(** [c], with [r] after it, is a maximal subpart of an ill-formed sequence
    (definition D93b of the standard): one byte that starts no code point,
    or the beginning of a code point cut off where the data end or where
    the next byte cannot continue it. *)
Definition ill_formed (c r : list byte) : Prop :=
  (exists x, c = [x] /\ forall t, code_point (x :: t) = false) \/
  (c <> [] /\
   (exists t, t <> [] /\ code_point (c ++ t)%list = true) /\
   forall y r', r = y :: r' -> forall t, code_point (c ++ y :: t)%list = false).

(** [replaced bs s]: [s] is [bs] with every code point kept as it is and
    every maximal subpart of an ill-formed sequence replaced by one
    U+FFFD. *)
Inductive replaced : list byte -> string -> Prop :=
| replaced_nil : replaced [] ""
| replaced_code_point c r s :
    code_point c = true -> replaced r s ->
    replaced (c ++ r)%list (string_of_list_byte c ++ s)
| replaced_ill_formed c r s :
    ill_formed c r -> replaced r s ->
    replaced (c ++ r)%list (replacement_character ++ s).

(** How many bytes follow the first byte of a code point. *)
Definition following (b1 : byte) : nat :=
  if N.leb (Byte.to_N b1) 127 then 0
  else if N.leb (Byte.to_N b1) 223 then 1
  else if N.leb (Byte.to_N b1) 239 then 2
  else 3.

(** After a first byte that announces [n] more bytes beyond the next, the
    next one in [lo, hi]: the tails that complete the code point. *)
Definition completes (n : nat) (lo hi : N) (t : list byte) : bool :=
  match t with
  | [] => false
  | b :: t' =>
      (between lo hi b && Nat.eqb (List.length t') n && forallb (between 128 191) t')%bool
  end.

(** The decoder, started on [bs], deals with a first chunk of it as
    [replaced] asks and goes on with the rest. *)
Definition chunk_at (bs : list byte) : Prop :=
  exists c r,
    bs = (c ++ r)%list /\ c <> [] /\
    ((code_point c = true /\
      decode_from replace None bs =
      emit (string_of_list_byte c) (decode_from replace None r)) \/
     (ill_formed c r /\
      decode_from replace None bs =
      emit replacement_character (decode_from replace None r))).

End Utf8.

(** ** Element trees ([xml.etree.ElementTree.Element]) *)

Module ET.

(** An element: its tag with the namespace expanded ([{uri}local]), its
    attributes, the text before its first child ([None] when there is
    none), the text after its end tag, and its children in document
    order. *)
#[warnings="-register-all"]
Inductive Element :=
  mkElement (tag : string) (attrib : list (string * string))
            (text : option string) (tail : option string)
            (children : list Element).

Definition tag (e : Element) : string :=
  match e with mkElement t _ _ _ _ => t end.
Definition attrib (e : Element) : list (string * string) :=
  match e with mkElement _ a _ _ _ => a end.
Definition text (e : Element) : option string :=
  match e with mkElement _ _ x _ _ => x end.
Definition tail (e : Element) : option string :=
  match e with mkElement _ _ _ x _ => x end.
Definition children (e : Element) : list Element :=
  match e with mkElement _ _ _ _ cs => cs end.

(** [Element.iter()]: the element, then its descendants, in document
    (depth-first, pre-) order. *)
Fixpoint iter (e : Element) : list Element :=
  match e with
  | mkElement _ _ _ _ cs => e :: flat_map iter cs
  end.

Definition has_tag (t : string) (e : Element) : bool := String.eqb (tag e) t.

(** [elem.findall('.//' + t)]: the elements of [elem.iter(t)] other than
    [elem] itself, which [iter] yields first. *)
Definition findall_descendants (elem : Element) (t : string) : list Element :=
  filter (has_tag t) (flat_map iter (children elem)).

(** [elem.find(t)]: the first child with tag [t]. *)
Definition find (elem : Element) (t : string) : option Element :=
  List.find (has_tag t) (children elem).

(** [elem.findtext(t, default)]: the text of the first child with tag [t],
    the empty string if that child has no text, [default] if there is no
    such child. *)
Definition findtext (elem : Element) (t : string) (default : option string) : option string :=
  match find elem t with
  | Some c => match text c with Some s => Some s | None => Some "" end
  | None => default
  end.

(** Number of elements of the tree. *)
Fixpoint size (e : Element) : nat :=
  match e with
  | mkElement _ _ _ _ cs => S (list_sum (map size cs))
  end.

(** [below e d]: [d] lies under [e], at any depth. *)
Inductive below : Element -> Element -> Prop :=
| below_child e c : In c (children e) -> below e c
| below_deeper e c d : In c (children e) -> below c d -> below e d.

(** The first child of [e] with tag [t] is [c]. *)
Definition first_child (e : Element) (t : string) (c : Element) : Prop :=
  exists before after,
    children e = (before ++ c :: after)%list /\
    tag c = t /\
    forall x, In x before -> tag x <> t.

End ET.

(** ** Dictionaries ([dict]: insertion-ordered, one entry per key) *)

Module Dict.

Section Dict.
Context {V : Type}.

Definition dict := list (string * V).

Definition empty : dict := [].

(** [d[k] = v]: replaces the value in place when [k] is present, adds the
    entry at the end otherwise. *)
Fixpoint set (d : dict) (k : string) (v : V) : dict :=
  match d with
  | [] => [(k, v)]
  | (k', v') :: d' =>
      if String.eqb k' k then (k', v) :: d' else (k', v') :: set d' k v
  end.

Fixpoint get (d : dict) (k : string) : option V :=
  match d with
  | [] => None
  | (k', v') :: d' => if String.eqb k' k then Some v' else get d' k
  end.

Definition keys (d : dict) : list string := map fst d.
Definition items (d : dict) : list (string * V) := d.

(** Truth value of a dictionary: false exactly when it is empty. *)
Definition nonempty (d : dict) : bool :=
  match d with [] => false | _ => true end.

End Dict.
Arguments dict V : clear implicits.

End Dict.

(** ** analyze.py *)

Import ET.

(** Values stored in the result: a [str], or for the tone curve a [list]
    of [str]. *)
Inductive param_value :=
| VStr (s : string)
| VList (l : list string).

Definition params := Dict.dict param_value.

(** The namespace bindings [ns] handed to every look-up. *)
Definition rdf_uri : string := "http://www.w3.org/1999/02/22-rdf-syntax-ns#".
Definition crs_uri : string := "http://ns.adobe.com/camera-raw-settings/1.0/".
Definition ns : list (string * string) := [("rdf", rdf_uri); ("crs", crs_uri)].

Fixpoint binding (namespaces : list (string * string)) (prefix : string) : option string :=
  match namespaces with
  | [] => None
  | (p, uri) :: more => if String.eqb p prefix then Some uri else binding more prefix
  end.

(** A path step [prefix:name] as ElementPath resolves it under [ns]: the
    tag [{uri}name].  (A prefix without binding is a [SyntaxError] there;
    the program uses the two bound prefixes only.) *)
Definition qualified (prefix name : string) : string :=
  match binding ns prefix with
  | Some uri => "{" ++ uri ++ "}" ++ name
  | None => prefix ++ ":" ++ name
  end.

Definition rdf (name : string) : string := qualified "rdf" name.
Definition crs (name : string) : string := qualified "crs" name.

Definition keys_to_extract : list string :=
  [ "Version"; "ProcessVersion"; "WhiteBalance"; "Temperature"; "Tint";
    "Exposure"; "Shadows"; "Brightness"; "Contrast"; "Saturation";
    "Sharpness"; "LuminanceSmoothing"; "ColorNoiseReduction";
    "ChromaticAberrationR"; "ChromaticAberrationB"; "VignetteAmount";
    "ShadowTint"; "RedHue"; "RedSaturation"; "GreenHue"; "GreenSaturation";
    "BlueHue"; "BlueSaturation"; "FillLight"; "Vibrance";
    "HighlightRecovery"; "Clarity"; "Defringe";
    "HueAdjustmentRed"; "HueAdjustmentOrange"; "HueAdjustmentYellow";
    "HueAdjustmentGreen"; "HueAdjustmentAqua"; "HueAdjustmentBlue";
    "HueAdjustmentPurple"; "HueAdjustmentMagenta";
    "SaturationAdjustmentRed"; "SaturationAdjustmentOrange";
    "SaturationAdjustmentYellow"; "SaturationAdjustmentGreen";
    "SaturationAdjustmentAqua"; "SaturationAdjustmentBlue";
    "SaturationAdjustmentPurple"; "SaturationAdjustmentMagenta";
    "LuminanceAdjustmentRed"; "LuminanceAdjustmentOrange";
    "LuminanceAdjustmentYellow"; "LuminanceAdjustmentGreen";
    "LuminanceAdjustmentAqua"; "LuminanceAdjustmentBlue";
    "LuminanceAdjustmentPurple"; "LuminanceAdjustmentMagenta";
    "SplitToningShadowHue"; "SplitToningShadowSaturation";
    "SplitToningHighlightHue"; "SplitToningHighlightSaturation";
    "SplitToningBalance";
    "ParametricShadows"; "ParametricDarks"; "ParametricLights";
    "ParametricHighlights"; "ParametricShadowSplit";
    "ParametricMidtoneSplit"; "ParametricHighlightSplit";
    "SharpenRadius"; "SharpenDetail"; "SharpenEdgeMasking";
    "PostCropVignetteAmount"; "GrainAmount"; "LensProfileEnable";
    "LensManualDistortionAmount"; "PerspectiveVertical";
    "PerspectiveHorizontal"; "PerspectiveRotate"; "PerspectiveScale";
    "ConvertToGrayscale"; "ToneCurveName"; "CameraProfile";
    "LensProfileSetup"; "HasSettings"; "HasCrop"; "AlreadyApplied" ].

(** Lines 115-118: the inner loop over [keys_to_extract] for one [desc]. *)
Definition extract_key (desc : Element) (editing_params : params) (key : string) : params :=
  match findtext desc (crs key) None with
  | Some val => Dict.set editing_params key (VStr val)
  | None => editing_params
  end.

Definition extract_keys (desc : Element) (editing_params : params) : params :=
  fold_left (extract_key desc) keys_to_extract editing_params.

(** Line 124: [[li.text for li in li_elements if li.text is not None]]. *)
Fixpoint texts (li_elements : list Element) : list string :=
  match li_elements with
  | [] => []
  | li :: more =>
      match text li with
      | Some s => s :: texts more
      | None => texts more
      end
  end.

Definition tone_curve_values (tone_curve_elem : Element) : list string :=
  texts (findall_descendants tone_curve_elem (rdf "li")).

(** Lines 120-126: the special handling of ToneCurve for one [desc]. *)
Definition extract_tone_curve (desc : Element) (editing_params : params) : params :=
  match find desc (crs "ToneCurve") with
  | Some tone_curve_elem =>
      match tone_curve_values tone_curve_elem with
      | [] => editing_params
      | vals => Dict.set editing_params "ToneCurve" (VList vals)
      end
  | None => editing_params
  end.

(** One turn of the loop of line 114. *)
Definition visit (editing_params : params) (desc : Element) : params :=
  extract_tone_curve desc (extract_keys desc editing_params).

(** The elements the loop of line 114 runs over. *)
Definition descriptions (root : Element) : list Element :=
  findall_descendants root (rdf "Description").

(** Lines 111-128. *)
Definition collect (root : Element) : params :=
  fold_left visit (descriptions root) Dict.empty.

(** The value of a tag, as far as line 11 tells values apart: a [bytes]
    object, or an object without a [decode] method (tifffile hands over a
    [str] for a tag of ASCII type), for which [xmp_bytes.decode] raises
    [AttributeError] with the given message. *)
Inductive tag_value :=
| Bytes (payload : list byte)
| NotBytes (attribute_error : string).

(** What the program reads of a TIFF file opened with [tifffile.TiffFile]:
    its pages, on each page the tags in the order [tags.values()] yields
    them, and of a tag its name and its value. *)
Record TiffTag := { name : string; value : tag_value }.
Record TiffPage := { tags : list TiffTag }.
Record TiffFile := { pages : list TiffPage }.

(** [for x in xs: body x] *)
Fixpoint for_each {A} (xs : list A) (body : A -> M unit) : M unit :=
  match xs with
  | [] => ret tt
  | x :: more => body x ;;; for_each more body
  end.

(** Lines 139-142: the value of the first tag named XMP, [None] when the
    loop ends without finding one. *)
Fixpoint find_xmp (page_tags : list TiffTag) : option tag_value :=
  match page_tags with
  | [] => None
  | tag :: more =>
      if String.eqb (name tag) "XMP" then Some (value tag) else find_xmp more
  end.

(** Truth value of [editing_metadata] on line 160: [None] and the empty
    dictionary are false. *)
Definition truthy (editing_metadata : option params) : bool :=
  match editing_metadata with
  | None => false
  | Some d => Dict.nonempty d
  end.

(** [', '.join(parts)] *)
Fixpoint join (parts : list string) : string :=
  match parts with
  | [] => ""
  | [x] => x
  | x :: more => x ++ ", " ++ join more
  end.

Definition file_path : string := "images/a0001-jmac_DSC1459.tif".

Section Program.

(** [ET.fromstring]: the root of the parsed document, or the message of the
    [ParseError] raised for text that is not well-formed XML. *)
Variable fromstring : string -> string + Element.

Definition ET_fromstring (xmp_str : string) : M Element :=
  match fromstring xmp_str with
  | inl msg => raise (Exn ParseError msg)
  | inr root => ret root
  end.

Definition parse_xmp (xmp_bytes : list byte) : M params :=
  parsed <- try_except
              (xmp_str <- lift_result (Utf8.decode xmp_bytes Utf8.replace) ;;
               root <- ET_fromstring xmp_str ;;
               ret (Some root))
              is_ParseError
              (fun e => print ("Error parsing XMP metadata: " ++ exn_str e) ;;;
                        ret None) ;;
  match parsed with
  | None => ret Dict.empty
  | Some root => ret (collect root)
  end.

(** The call of line 149, for whatever the tag holds: for an object
    without [decode], line 11 raises before anything else is done, and the
    handler of line 13 does not catch it. *)
Definition parse_xmp_of (xmp_data : tag_value) : M params :=
  match xmp_data with
  | Bytes xmp_bytes => parse_xmp xmp_bytes
  | NotBytes msg => raise (Exn (OtherException "AttributeError") msg)
  end.

(** [tifffile.TiffFile(file_path)]: the opened file, or the exception
    raised for a path that cannot be opened or read as a TIFF container. *)
Variable TiffFile_open : string -> exn + TiffFile.

(** The message of the [IndexError] that [tif.pages[0]] raises on a file
    without pages. *)
Variable index_error_message : string.

Definition first_page (tif : TiffFile) : M TiffPage :=
  match pages tif with
  | [] => raise (Exn IndexError index_error_message)
  | page :: _ => ret page
  end.

Definition extract_editing_metadata (path : string) : M (option params) :=
  try_except
    (tif <- lift_result (TiffFile_open path) ;;
     page <- first_page tif ;;
     match find_xmp (tags page) with
     | None =>
         print "No XMP metadata found in the file." ;;;
         ret None
     | Some xmp_data =>
         editing_params <- parse_xmp_of xmp_data ;;
         ret (Some editing_params)
     end)
    is_Exception
    (fun e => print ("Error extracting editing metadata: " ++ exn_str e) ;;;
              ret None).

(** [repr] of a [str], as used when a list of strings is formatted. *)
Variable repr : string -> string.

(** [f"{value}"] *)
Definition format (v : param_value) : string :=
  match v with
  | VStr s => s
  | VList l => "[" ++ join (map repr l) ++ "]"
  end.

Definition line (item : string * param_value) : string :=
  fst item ++ ": " ++ format (snd item).

(** [editing_metadata.items()] *)
Definition items_of (editing_metadata : option params) : M (list (string * param_value)) :=
  match editing_metadata with
  | Some d => ret (Dict.items d)
  | None => raise (Exn (OtherException "AttributeError")
                       "'NoneType' object has no attribute 'items'")
  end.

(** Lines 160-165, for a given [editing_metadata]. *)
Definition report (editing_metadata : option params) : M unit :=
  if truthy editing_metadata then
    print "Extracted Editing Metadata:" ;;;
    entries <- items_of editing_metadata ;;
    for_each entries (fun item => print (line item))
  else
    print "No editing metadata could be extracted.".

(** Lines 156-165. *)
Definition main : M unit :=
  editing_metadata <- extract_editing_metadata file_path ;;
  report editing_metadata.

End Program.

(** ** Vocabulary of the statements *)

(** What a child element contributes as text: its text, or the empty
    string when it has none. *)
Definition text_or_empty (c : Element) : string :=
  match text c with Some s => s | None => "" end.

(** What [desc] supplies for [key]: the text of its first [crs:key] child. *)
Definition setting (key : string) (desc : Element) : option param_value :=
  match find desc (crs key) with
  | Some c => Some (VStr (text_or_empty c))
  | None => None
  end.

(** What [desc] supplies as tone curve: the texts of the [rdf:li] elements
    below its first [crs:ToneCurve] child, when there are any. *)
Definition tone_curve (desc : Element) : option param_value :=
  match find desc (crs "ToneCurve") with
  | Some tone_curve_elem =>
      match tone_curve_values tone_curve_elem with
      | [] => None
      | vals => Some (VList vals)
      end
  | None => None
  end.

Definition is_some {X} (o : option X) : bool :=
  match o with Some _ => true | None => false end.

Definition is_Description (e : Element) : bool := has_tag (rdf "Description") e.

(** The [rdf:Description] elements of the whole document, the root
    included, that have a [crs:key] child; in document order. *)
Definition descriptions_setting (key : string) (root : Element) : list Element :=
  filter (fun d => is_Description d && is_some (setting key d)) (iter root).

(** An accumulator overwritten by every element that supplies a value. *)
Definition overwrite {A X} (f : A -> option X) (acc : option X) (a : A) : option X :=
  match f a with Some v => Some v | None => acc end.

Definition allowed (k : string) : Prop := In k keys_to_extract \/ k = "ToneCurve".

(** Some [rdf:li] below [tc] has text. *)
Definition has_curve_point (tc : Element) : Prop :=
  exists li, below tc li /\ tag li = rdf "li" /\ text li <> None.

(** ** Sample inputs *)

Module Samples.

Definition E (t : string) (x : option string) (cs : list Element) : Element :=
  mkElement t [] x None cs.

Definition xmlns : string :=
  " xmlns:rdf='http://www.w3.org/1999/02/22-rdf-syntax-ns#'" ++
  " xmlns:crs='http://ns.adobe.com/camera-raw-settings/1.0/'".

(** Two descriptions setting Contrast, 10 and then 25. *)
Definition contrast_xml : string :=
  "<rdf:RDF" ++ xmlns ++ ">" ++
  "<rdf:Description><crs:Contrast>10</crs:Contrast></rdf:Description>" ++
  "<rdf:Description><crs:Contrast>25</crs:Contrast></rdf:Description>" ++
  "</rdf:RDF>".
Definition contrast_first : Element :=
  E (rdf "Description") None [E (crs "Contrast") (Some "10") []].
Definition contrast_second : Element :=
  E (rdf "Description") None [E (crs "Contrast") (Some "25") []].
Definition contrast_doc : Element :=
  E (rdf "RDF") None [contrast_first; contrast_second].

(** One description with an exposure and a tone curve of three points, one
    more [rdf:li] being empty; a second description whose tone curve has
    no point. *)
Definition curve_xml : string :=
  "<rdf:RDF" ++ xmlns ++ ">" ++
  "<rdf:Description><crs:Exposure>0.50</crs:Exposure>" ++
  "<crs:ToneCurve><rdf:Seq><rdf:li>0, 0</rdf:li><rdf:li/><rdf:li>32, 22</rdf:li>" ++
  "<rdf:li>255, 255</rdf:li></rdf:Seq></crs:ToneCurve></rdf:Description>" ++
  "<rdf:Description><crs:ToneCurve><rdf:Seq/></crs:ToneCurve></rdf:Description>" ++
  "</rdf:RDF>".
Definition curve_elem : Element :=
  E (crs "ToneCurve") None
    [E (rdf "Seq") None
       [E (rdf "li") (Some "0, 0") []; E (rdf "li") None [];
        E (rdf "li") (Some "32, 22") []; E (rdf "li") (Some "255, 255") []]].
Definition curve_desc : Element :=
  E (rdf "Description") None [E (crs "Exposure") (Some "0.50") []; curve_elem].
Definition curve_doc : Element :=
  E (rdf "RDF") None
    [curve_desc;
     E (rdf "Description") None [E (crs "ToneCurve") None [E (rdf "Seq") None []]]].

(** A description with two [crs:ToneCurve] children, the first without
    points. *)
Definition two_curves_xml : string :=
  "<rdf:RDF" ++ xmlns ++ ">" ++
  "<rdf:Description><crs:ToneCurve/>" ++
  "<crs:ToneCurve><rdf:Seq><rdf:li>0, 0</rdf:li></rdf:Seq></crs:ToneCurve>" ++
  "</rdf:Description></rdf:RDF>".
Definition second_curve : Element :=
  E (crs "ToneCurve") None [E (rdf "Seq") None [E (rdf "li") (Some "0, 0") []]].
Definition two_curves_desc : Element :=
  E (rdf "Description") None [E (crs "ToneCurve") None []; second_curve].
Definition two_curves_doc : Element :=
  E (rdf "RDF") None [two_curves_desc].

(** A description whose [crs:Contrast] element is empty. *)
Definition empty_contrast_xml : string :=
  "<rdf:RDF" ++ xmlns ++ ">" ++
  "<rdf:Description><crs:Contrast/></rdf:Description></rdf:RDF>".
Definition empty_contrast : Element := E (crs "Contrast") None [].
Definition empty_contrast_desc : Element :=
  E (rdf "Description") None [empty_contrast].
Definition empty_contrast_doc : Element :=
  E (rdf "RDF") None [empty_contrast_desc].

(** A document whose root is itself an [rdf:Description]. *)
Definition root_description_xml : string :=
  "<rdf:Description" ++ xmlns ++ ">" ++
  "<crs:Contrast>10</crs:Contrast></rdf:Description>".
Definition root_description_doc : Element :=
  E (rdf "Description") None [E (crs "Contrast") (Some "10") []].

(** Text that is cut off inside its first tag. *)
Definition truncated_xml : string := "<rdf:RDF".

(** An element whose text is one U+FFFD. *)
Definition replaced_xml : string := "<a>" ++ Utf8.replacement_character ++ "</a>".
Definition replaced_doc : Element := E "a" (Some Utf8.replacement_character) [].

(** A parser that knows the sample documents and rejects the rest. *)
Definition fromstring (xmp_str : string) : string + Element :=
  if String.eqb xmp_str contrast_xml then inr contrast_doc
  else if String.eqb xmp_str curve_xml then inr curve_doc
  else if String.eqb xmp_str two_curves_xml then inr two_curves_doc
  else if String.eqb xmp_str empty_contrast_xml then inr empty_contrast_doc
  else if String.eqb xmp_str root_description_xml then inr root_description_doc
  else if String.eqb xmp_str replaced_xml then inr replaced_doc
  else if String.eqb xmp_str truncated_xml
       then inl "unclosed token: line 1, column 0"
  else inl "syntax error: line 1, column 0".

Definition bytes (s : string) : list byte := list_byte_of_string s.

(** An XML payload with a byte (FF) that no UTF-8 sequence contains. *)
Definition invalid_utf8 : list byte := (bytes "<a>" ++ [xff] ++ bytes "</a>")%list.

Definition tiff_with (payload : list byte) : TiffFile :=
  {| pages := [ {| tags := [ {| name := "ImageWidth"; value := Bytes [] |};
                            {| name := "XMP"; value := Bytes payload |};
                            {| name := "Software"; value := Bytes [] |} ] |} ] |}.

Definition tiff_without_xmp : TiffFile :=
  {| pages := [ {| tags := [ {| name := "ImageWidth"; value := Bytes [] |};
                            {| name := "xmp"; value := Bytes (bytes contrast_xml) |} ] |} ] |}.

(** A file system: the script's own path holds a file with the tone curve
    sample, three more files exist, every other path is missing. *)
Definition TiffFile_open (path : string) : exn + TiffFile :=
  if String.eqb path file_path then inr (tiff_with (bytes curve_xml))
  else if String.eqb path "contrast.tif" then inr (tiff_with (bytes contrast_xml))
  else if String.eqb path "plain.tif" then inr tiff_without_xmp
  else if String.eqb path "empty.tif" then inr {| pages := [] |}
  else inl (Exn (OtherException "FileNotFoundError")
                ("[Errno 2] No such file or directory: '" ++ path ++ "'")).

(** A file system where the script's path holds a file whose XMP payload
    is the truncated text. *)
Definition TiffFile_open_truncated (path : string) : exn + TiffFile :=
  inr (tiff_with (bytes truncated_xml)).

Definition index_error_message : string := "index out of range".

(** [repr] on strings free of quotes, backslashes and control characters. *)
Definition repr (s : string) : string := "'" ++ s ++ "'".

End Samples.

(** ** Vocabulary of the further statements *)

(** The entry [desc] supplies for one allow-listed name, if any. *)
Definition entry (desc : Element) (key : string) : params :=
  match setting key desc with Some v => [(key, v)] | None => [] end.

(** The entries [desc] supplies for the allow-listed names, in the order
    of the allow-list. *)
Definition settings_of (desc : Element) : params :=
  flat_map (entry desc) keys_to_extract.

Definition tone_curve_of (desc : Element) : params :=
  match tone_curve desc with Some v => [("ToneCurve", v)] | None => [] end.

(** The element tree with every attribute and every tail text erased. *)
Fixpoint strip (e : Element) : Element :=
  match e with
  | mkElement t _ x _ cs => mkElement t [] x None (map strip cs)
  end.

(** [t] is the first tag named XMP among [page_tags]. *)
Definition first_xmp (page_tags : list TiffTag) (t : TiffTag) : Prop :=
  exists before after,
    page_tags = (before ++ t :: after)%list /\
    name t = "XMP" /\
    Forall (fun x => name x <> "XMP") before.

(** Every byte is below 80. *)
Definition ascii_only (bs : list byte) : Prop :=
  Forall (fun b => N.ltb (Byte.to_N b) 128 = true) bs.

Module MoreSamples.
Import Samples.

(** One description with two settings, given out of allow-list order, and
    a tone curve. *)
Definition single_xml : string :=
  "<rdf:RDF" ++ xmlns ++ ">" ++
  "<rdf:Description><crs:Contrast>25</crs:Contrast>" ++
  "<crs:ToneCurve><rdf:Seq><rdf:li>0, 0</rdf:li></rdf:Seq></crs:ToneCurve>" ++
  "<crs:Exposure>0.50</crs:Exposure></rdf:Description></rdf:RDF>".
Definition single_desc : Element :=
  E (rdf "Description") None
    [E (crs "Contrast") (Some "25") [];
     E (crs "ToneCurve") None [E (rdf "Seq") None [E (rdf "li") (Some "0, 0") []]];
     E (crs "Exposure") (Some "0.50") []].
Definition single_doc : Element := E (rdf "RDF") None [single_desc].

(** A description that carries its setting as an attribute, followed by
    tail text; and the same description without either. *)
Definition attribute_xml : string :=
  "<rdf:RDF" ++ xmlns ++ ">" ++
  "<rdf:Description crs:Contrast='10'><crs:Exposure>0.50</crs:Exposure>" ++
  "</rdf:Description> </rdf:RDF>".
Definition attribute_doc : Element :=
  E (rdf "RDF") None
    [mkElement (rdf "Description") [(crs "Contrast", "10")] None (Some " ")
       [E (crs "Exposure") (Some "0.50") []]].
Definition bare_xml : string :=
  "<rdf:RDF" ++ xmlns ++ ">" ++
  "<rdf:Description><crs:Exposure>0.50</crs:Exposure>" ++
  "</rdf:Description></rdf:RDF>".
Definition bare_doc : Element :=
  E (rdf "RDF") None
    [E (rdf "Description") None [E (crs "Exposure") (Some "0.50") []]].

(** A document without any description. *)
Definition no_description_xml : string := "<rdf:RDF" ++ xmlns ++ "/>".
Definition no_description_doc : Element := E (rdf "RDF") None [].

(** The sample parser, knowing these documents too. *)
Definition fromstring (xmp_str : string) : string + Element :=
  if String.eqb xmp_str single_xml then inr single_doc
  else if String.eqb xmp_str attribute_xml then inr attribute_doc
  else if String.eqb xmp_str bare_xml then inr bare_doc
  else if String.eqb xmp_str no_description_xml then inr no_description_doc
  else Samples.fromstring xmp_str.

(** A first page with two tags named XMP and a second page with a third. *)
Definition tiff_two_xmp : TiffFile :=
  {| pages := [ {| tags := [ {| name := "ImageWidth"; value := Bytes [] |};
                            {| name := "XMP"; value := Bytes (bytes single_xml) |};
                            {| name := "XMP"; value := Bytes (bytes contrast_xml) |} ] |};
                {| tags := [ {| name := "XMP"; value := Bytes (bytes curve_xml) |} ] |} ] |}.

(** A first page whose XMP tag is of ASCII type, so that its value is a
    [str]; a second tag named XMP holds bytes. *)
Definition tiff_str_xmp : TiffFile :=
  {| pages := [ {| tags := [ {| name := "XMP";
                               value := NotBytes "'str' object has no attribute 'decode'" |};
                            {| name := "XMP"; value := Bytes (bytes contrast_xml) |} ] |} ] |}.

Definition TiffFile_open (path : string) : exn + TiffFile :=
  if String.eqb path "two.tif" then inr tiff_two_xmp
  else if String.eqb path "ascii.tif" then inr tiff_str_xmp
  else Samples.TiffFile_open path.

End MoreSamples.

(** * Properties *)

(** ** Dictionaries *)

Module DictFacts.
Import Dict.

Section Facts.
Context {V : Type}.
Implicit Types (d : dict V) (k : string) (v : V).

Lemma get_set_same d k v : get (set d k v) k = Some v.
Proof.
  induction d as [|[k' v'] d IH]; simpl.
  - now rewrite String.eqb_refl.
  - destruct (String.eqb k' k) eqn:E; simpl; rewrite E; auto.
Qed.

Lemma get_set_other d k k' v : k <> k' -> get (set d k v) k' = get d k'.
Proof.
  intros Hne. induction d as [|[k0 v0] d IH]; simpl.
  - destruct (String.eqb k k') eqn:E; auto.
    apply String.eqb_eq in E. contradiction.
  - destruct (String.eqb k0 k) eqn:E; simpl.
    + apply String.eqb_eq in E. subst k0.
      destruct (String.eqb k k') eqn:E'; auto.
      apply String.eqb_eq in E'. contradiction.
    + now rewrite IH.
Qed.

Lemma in_keys_set d k v k' :
  In k' (keys (set d k v)) <-> k' = k \/ In k' (keys d).
Proof.
  unfold keys. induction d as [|[k0 v0] d IH]; simpl.
  - intuition.
  - destruct (String.eqb k0 k) eqn:E; simpl.
    + apply String.eqb_eq in E. subst. intuition.
    + rewrite IH. intuition.
Qed.

Lemma in_keys_get d k : In k (keys d) <-> get d k <> None.
Proof.
  unfold keys. induction d as [|[k0 v0] d IH]; simpl.
  - intuition.
  - destruct (String.eqb k0 k) eqn:E.
    + apply String.eqb_eq in E. subst. intuition discriminate.
    + apply String.eqb_neq in E. rewrite <- IH. intuition.
Qed.

Lemma NoDup_keys_set d k v : NoDup (keys d) -> NoDup (keys (set d k v)).
Proof.
  unfold keys. induction d as [|[k0 v0] d IH]; simpl; intros H.
  - constructor; [intros []|constructor].
  - inversion H as [|? ? Hnin Hnd]; subst.
    destruct (String.eqb k0 k) eqn:E; simpl.
    + now constructor.
    + constructor; [|auto].
      intros Hin. apply (in_keys_set d k v k0) in Hin.
      apply String.eqb_neq in E. destruct Hin; [congruence|contradiction].
Qed.

End Facts.
End DictFacts.

(** ** Element trees *)

Module ETFacts.

(** Induction on element trees, with the hypothesis for all children. *)
Lemma Element_tree_ind (P : Element -> Prop) :
  (forall t a x tl cs, Forall P cs -> P (mkElement t a x tl cs)) ->
  forall e, P e.
Proof.
  intros step. fix IH 1. intros [t a x tl cs]. apply step.
  induction cs as [|c cs IHcs]; constructor; [apply IH|exact IHcs].
Qed.

Lemma iter_unfold e : iter e = e :: flat_map iter (children e).
Proof. now destruct e. Qed.

Lemma iter_self e : In e (iter e).
Proof. rewrite iter_unfold. now left. Qed.

Lemma below_in_iter e d : below e d -> In d (flat_map iter (children e)).
Proof.
  induction 1 as [e c Hc | e c d Hc _ IH]; apply in_flat_map; exists c; split; auto.
  - apply iter_self.
  - rewrite iter_unfold. now right.
Qed.

Lemma in_iter_below e : forall d, In d (flat_map iter (children e)) -> below e d.
Proof.
  induction e as [t a x tl cs IH] using Element_tree_ind. simpl.
  intros d Hd. apply in_flat_map in Hd. destruct Hd as [c [Hc Hd]].
  rewrite Forall_forall in IH. specialize (IH c Hc d).
  rewrite iter_unfold in Hd. destruct Hd as [<- | Hd].
  - now apply below_child.
  - apply below_deeper with c; auto.
Qed.

(** [findall] with a [.//] path: exactly the elements below the context
    element that carry the tag. *)
Lemma in_findall_descendants e t d :
  In d (findall_descendants e t) <-> below e d /\ tag d = t.
Proof.
  unfold findall_descendants, has_tag. rewrite filter_In, String.eqb_eq.
  split; intros [H1 H2]; split; auto using in_iter_below, below_in_iter.
Qed.

Lemma find_first_child e t c : find e t = Some c <-> first_child e t c.
Proof.
  unfold find, first_child, has_tag. generalize (children e) as cs.
  induction cs as [|x cs IH]; simpl.
  - split; [discriminate|]. intros (b & a & H & _). now destruct b.
  - destruct (String.eqb (tag x) t) eqn:E.
    + apply String.eqb_eq in E. split.
      * intros [= <-]. exists [], cs. simpl. intuition.
      * intros (b & a & H & Ht & Hb). destruct b as [|y b]; simpl in H.
        -- now injection H as <- _.
        -- injection H as <- _. exfalso. apply (Hb x); simpl; auto.
    + apply String.eqb_neq in E. rewrite IH. split.
      * intros (b & a & -> & Ht & Hb). exists (x :: b), a. simpl.
        split; [reflexivity|]. split; [assumption|].
        intros y [<-|Hy]; auto.
      * intros (b & a & H & Ht & Hb). destruct b as [|y b]; simpl in H.
        -- injection H as <- _. contradiction.
        -- injection H as <- ->. exists b, a.
           split; [reflexivity|]. split; [assumption|].
           intros z Hz. apply Hb. now right.
Qed.

Lemma find_none e t : find e t = None <-> forall c, In c (children e) -> tag c <> t.
Proof.
  unfold find, has_tag. generalize (children e) as cs.
  induction cs as [|x cs IH]; simpl.
  - intuition.
  - destruct (String.eqb (tag x) t) eqn:E.
    + apply String.eqb_eq in E. split; [discriminate|].
      intros H. exfalso. apply (H x); auto.
    + apply String.eqb_neq in E. rewrite IH. split.
      * intros H c [<-|Hc]; auto.
      * intros H c Hc. apply H. auto.
Qed.

End ETFacts.

(** ** Decoding *)

Module Utf8Facts.
Import Utf8.

Lemma occurs_here r s : occurs r (r ++ s).
Proof. exists "", s. reflexivity. Qed.

Lemma append_assoc (a b c : string) : (a ++ b) ++ c = a ++ (b ++ c).
Proof. induction a as [|x a IH]; simpl; [reflexivity | now rewrite IH]. Qed.

Lemma occurs_after r p s : occurs r s -> occurs r (p ++ s).
Proof.
  intros (b & a & ->). exists (p ++ b), a. now rewrite append_assoc.
Qed.

Section Step.
Variables (b : byte) (strictly leniently : option pending -> exn + string).

Hypothesis lenient_total : forall p, exists s, leniently p = inr s.

Lemma start_replace_total : exists s, start replace b leniently = inr s.
Proof.
  unfold start. destruct (N.ltb (to_N b) 128).
  - destruct (lenient_total None) as [s ->]. cbn [emit on_error]. eauto.
  - destruct (lead b) as [[[n l] u]|]; [apply lenient_total|].
    destruct (lenient_total None) as [s ->]. cbn [emit on_error]. eauto.
Qed.

Lemma continue_replace_total q : exists s, continue replace q b leniently = inr s.
Proof.
  unfold continue. destruct (in_range (lo q) (hi q) b).
  - destruct (more q); [|apply lenient_total].
    destruct (lenient_total None) as [s ->]. cbn [emit on_error]. eauto.
  - destruct start_replace_total as [s ->]. cbn [emit on_error]. eauto.
Qed.

Hypothesis error_marked : forall p e, strictly p = inl e ->
  exists s, leniently p = inr s /\ occurs replacement_character s.

Lemma start_strict_error e :
  start strict b strictly = inl e ->
  exists s, start replace b leniently = inr s /\ occurs replacement_character s.
Proof.
  unfold start. destruct (N.ltb (to_N b) 128).
  - destruct (strictly None) as [e0|s0] eqn:E; [|discriminate].
    intros _. destruct (error_marked None e0 E) as (s & -> & Hs). cbn [emit on_error].
    eexists. split; [reflexivity|]. now apply occurs_after.
  - destruct (lead b) as [[[n l] u]|]; [apply error_marked|].
    intros _. destruct (lenient_total None) as [s ->]. cbn [emit on_error].
    eexists. split; [reflexivity|]. apply occurs_here.
Qed.

Lemma continue_strict_error q e :
  continue strict q b strictly = inl e ->
  exists s, continue replace q b leniently = inr s /\ occurs replacement_character s.
Proof.
  unfold continue. destruct (in_range (lo q) (hi q) b).
  - destruct (more q); [|apply error_marked].
    destruct (strictly None) as [e0|s0] eqn:E; [|discriminate].
    intros _. destruct (error_marked None e0 E) as (s & -> & Hs). cbn [emit on_error].
    eexists. split; [reflexivity|]. now apply occurs_after.
  - intros _. destruct start_replace_total as [s ->]. cbn [emit on_error].
    eexists. split; [reflexivity|]. apply occurs_here.
Qed.

Hypothesis agree : forall p s, strictly p = inr s -> leniently p = inr s.

Lemma start_strict_ok s :
  start strict b strictly = inr s -> start replace b leniently = inr s.
Proof.
  unfold start. destruct (N.ltb (to_N b) 128).
  - destruct (strictly None) as [e0|s0] eqn:E; [discriminate|].
    now rewrite (agree None s0 E).
  - destruct (lead b) as [[[n l] u]|]; [apply agree | discriminate].
Qed.

Lemma continue_strict_ok q s :
  continue strict q b strictly = inr s -> continue replace q b leniently = inr s.
Proof.
  unfold continue. destruct (in_range (lo q) (hi q) b); [|discriminate].
  destruct (more q); [|apply agree].
  destruct (strictly None) as [e0|s0] eqn:E; [discriminate|].
  now rewrite (agree None s0 E).
Qed.

End Step.

(** With ['replace'] the decoder has a result in every state and on every
    input. *)
Lemma decode_from_replace_total bs :
  forall p, exists s, decode_from replace p bs = inr s.
Proof.
  induction bs as [|b rest IH]; intros p; simpl.
  - destruct p; simpl; eauto.
  - destruct p; [apply continue_replace_total | apply start_replace_total]; exact IH.
Qed.

Lemma decode_replace_decoded bs : decode bs replace = inr (decoded bs).
Proof.
  unfold decoded. destruct (decode_from_replace_total bs None) as [s H].
  unfold decode. now rewrite H.
Qed.

(** Where ['strict'] raises, ['replace'] leaves a U+FFFD in the text. *)
Lemma decode_from_strict_error bs :
  forall p e, decode_from strict p bs = inl e ->
  exists s, decode_from replace p bs = inr s /\ occurs replacement_character s.
Proof.
  induction bs as [|b rest IH]; intros p e; simpl.
  - destruct p; [|discriminate].
    intros _. exists (replacement_character ++ ""). split; [reflexivity|].
    apply occurs_here.
  - destruct p.
    + apply continue_strict_error; [apply decode_from_replace_total | exact IH].
    + apply start_strict_error; [apply decode_from_replace_total | exact IH].
Qed.

(** Where ['strict'] succeeds, ['replace'] gives the same text. *)
Lemma decode_from_strict_ok bs :
  forall p s, decode_from strict p bs = inr s -> decode_from replace p bs = inr s.
Proof.
  induction bs as [|b rest IH]; intros p s; simpl.
  - destruct p; simpl; [discriminate|auto].
  - destruct p; [apply continue_strict_ok | apply start_strict_ok]; exact IH.
Qed.

(** *** The decoder against the standard *)

Lemma between_in_range lo hi b : between lo hi b = in_range lo hi b.
Proof. reflexivity. Qed.

Lemma string_of_list_byte_snoc sb b :
  string_of_list_byte (sb ++ [b]) = string_of_list_byte sb ++ one b.
Proof.
  induction sb as [|x sb IH]; [reflexivity|].
  change (string_of_list_byte ((x :: sb) ++ [b]))
    with (String (ascii_of_byte x) (string_of_list_byte (sb ++ [b]))).
  now rewrite IH.
Qed.

Lemma forallb_repeat {A} (p : A -> bool) (a : A) (n : nat) :
  p a = true -> forallb p (repeat a n) = true.
Proof. intros H. induction n; simpl; [reflexivity|now rewrite H]. Qed.

Lemma completes_next n lo hi b t :
  between lo hi b = true ->
  completes (S n) lo hi (b :: t) = completes n 128 191 t.
Proof.
  intros Hb. unfold completes. rewrite Hb.
  destruct t as [|b' t']; [reflexivity|].
  cbn [List.length forallb Nat.eqb andb].
  destruct (between 128 191 b'), (Nat.eqb (List.length t') n),
    (forallb (between 128 191) t'); reflexivity.
Qed.

(** In the middle of a sequence: [sb] are the bytes read so far. *)
Lemma pending_chunk (n : nat) :
  forall (sb : list byte) (l u : N) (w : byte),
  sb <> [] ->
  between l u w = true ->
  (forall t, code_point (sb ++ t) = completes n l u t) ->
  forall r,
  exists c r',
    (sb ++ r)%list = (c ++ r')%list /\ c <> [] /\
    ((code_point c = true /\
      decode_from replace (Some (Pending n l u (string_of_list_byte sb))) r =
      emit (string_of_list_byte c) (decode_from replace None r')) \/
     (ill_formed c r' /\
      decode_from replace (Some (Pending n l u (string_of_list_byte sb))) r =
      emit replacement_character (decode_from replace None r'))).
Proof.
  induction n as [|n IH]; intros sb l u w Hsb Hw Hcp r.
  all: assert (Hmore : exists t, t <> [] /\ code_point (sb ++ t) = true).
  1,3: (eexists (w :: repeat x80 _); split; [discriminate|];
        rewrite Hcp; unfold completes; rewrite Hw, repeat_length, Nat.eqb_refl;
        now rewrite forallb_repeat).
  all: destruct r as [|b r].
  1,3: (exists sb, []; split; [reflexivity|]; split; [exact Hsb|]; right; split;
        [right; split; [exact Hsb|]; split; [exact Hmore|discriminate]|reflexivity]).
  all: destruct (between l u b) eqn:Hb.
  2,4: (exists sb, (b :: r); split; [reflexivity|]; split; [exact Hsb|]; right; split;
        [right; split; [exact Hsb|]; split; [exact Hmore|];
         intros y r' [= <- <-] t; rewrite Hcp; unfold completes; now rewrite Hb
        |simpl; unfold continue; simpl lo; simpl hi;
         rewrite <- between_in_range, Hb; reflexivity]).
  - exists (sb ++ [b])%list, r. split; [now rewrite <- app_assoc|].
    split; [now destruct sb|]. left. split.
    + rewrite Hcp. unfold completes. now rewrite Hb.
    + simpl. unfold continue. simpl lo. simpl hi.
      rewrite <- between_in_range, Hb. simpl more. cbv iota. simpl seen.
      now rewrite string_of_list_byte_snoc.
  - destruct (IH (sb ++ [b])%list 128%N 191%N x80) with (r := r)
      as (c & r' & Heq & Hc & Hcase).
    + now destruct sb.
    + reflexivity.
    + intros t. rewrite <- app_assoc. simpl app. rewrite Hcp.
      now apply completes_next.
    + exists c, r'. split; [now rewrite <- Heq, <- app_assoc|].
      split; [exact Hc|].
      assert (Hstep :
        decode_from replace (Some (Pending (S n) l u (string_of_list_byte sb))) (b :: r) =
        decode_from replace (Some (Pending n 128 191 (string_of_list_byte (sb ++ [b])))) r).
      { simpl. unfold continue. simpl lo. simpl hi.
        rewrite <- between_in_range, Hb. simpl more. cbv iota. simpl seen.
        now rewrite string_of_list_byte_snoc. }
      rewrite Hstep. exact Hcase.
Qed.

Lemma lead_chunk (b1 : byte) (n : nat) (l u : N) (w : byte) :
  N.ltb (to_N b1) 128 = false ->
  lead b1 = Some (n, l, u) ->
  between l u w = true ->
  (forall t, code_point (b1 :: t) = completes n l u t) ->
  forall r, chunk_at (b1 :: r).
Proof.
  intros Hhigh Hlead Hw Hcp r.
  destruct (pending_chunk n [b1] l u w) with (r := r) as (c & r' & Heq & Hc & Hcase);
    [discriminate|exact Hw|exact Hcp|].
  exists c, r'. split; [exact Heq|]. split; [exact Hc|].
  assert (Hstep : decode_from replace None (b1 :: r) =
                  decode_from replace (Some (Pending n l u (string_of_list_byte [b1]))) r).
  { simpl. unfold start. now rewrite Hhigh, Hlead. }
  now rewrite Hstep.
Qed.

Ltac no_code_point_starts :=
  let t := fresh "t" in
  intros t; destruct t as [|? [|? [|? [|? ?]]]]; reflexivity.

Ltac completes_table :=
  let t := fresh "t" in
  intros t; destruct t as [|? [|? [|? [|? ?]]]]; cbn -[between];
  repeat match goal with
         | |- context [between ?a ?b ?x] => destruct (between a b x)
         end;
  reflexivity.

Ltac lead_case w :=
  match goal with
  | |- chunk_at (?b :: _) =>
      let v := eval vm_compute in (lead b) in
      lazymatch v with
      | Some (?n, ?l, ?u) =>
          apply (lead_chunk b n l u w);
          [reflexivity | reflexivity | reflexivity | completes_table]
      end
  end.

(** Whatever the first byte, the decoder deals with a first chunk as the
    standard asks. *)
Lemma chunk_at_cons (b1 : byte) (r : list byte) : chunk_at (b1 :: r).
Proof.
  destruct b1;
    match goal with
    | |- chunk_at (?b :: _) =>
        first
          [ (* a byte below 80 is a code point *)
            exists [b], r; split; [reflexivity|]; split; [discriminate|];
            left; split; reflexivity
          | (* a byte that starts no code point *)
            exists [b], r; split; [reflexivity|]; split; [discriminate|];
            right; split; [|reflexivity];
            left; exists b; split; [reflexivity|no_code_point_starts]
          | lead_case xbf
          | lead_case x80 ]
    end.
Qed.

(** The text decoded with ['replace'] is the payload with its ill-formed
    parts replaced as the standard describes. *)
Lemma decode_from_replaced (bs : list byte) :
  exists s, decode_from replace None bs = inr s /\ replaced bs s.
Proof.
  assert (H : forall n bs, List.length bs <= n ->
              exists s, decode_from replace None bs = inr s /\ replaced bs s).
  { induction n as [|n IH]; intros [|b1 r] Hlen.
    - exists "". split; [reflexivity|constructor].
    - simpl in Hlen. lia.
    - exists "". split; [reflexivity|constructor].
    - destruct (chunk_at_cons b1 r) as (c & r' & Heq & Hc & Hcase).
      assert (Hshort : List.length r' <= n).
      { apply (f_equal (@List.length byte)) in Heq. rewrite length_app in Heq.
        simpl in Heq, Hlen. destruct c; [congruence|simpl in Heq]. lia. }
      destruct (IH r' Hshort) as (s & Hs & Hrep).
      destruct Hcase as [[Hgood ->]|[Hbad ->]]; rewrite Hs, Heq; simpl emit;
        eexists; (split; [reflexivity|]).
      + now apply replaced_code_point.
      + now apply replaced_ill_formed. }
  apply (H (List.length bs)). lia.
Qed.

(** *** The standard leaves no choice *)

Lemma code_point_following b1 t :
  code_point (b1 :: t) = true -> List.length t = following b1.
Proof.
  destruct b1; destruct t as [|? [|? [|? [|? ?]]]];
    intros H; first [reflexivity | discriminate H].
Qed.

(** No code point is the beginning of another. *)
Lemma code_point_prefix_free c l :
  code_point c = true -> code_point (c ++ l) = true -> l = [].
Proof.
  destruct c as [|b1 t]; [discriminate|]. intros H H'.
  apply code_point_following in H. simpl app in H'.
  apply code_point_following in H'. rewrite length_app in H'.
  destruct l; [reflexivity|simpl in H'; lia].
Qed.

Lemma code_point_not_ill_formed c r c' r' :
  code_point c = true -> ill_formed c' r' -> (c ++ r)%list = (c' ++ r')%list -> False.
Proof.
  intros Hc [(x & -> & Hx)|(Hne & (t0 & Ht0 & Hcp) & Hmax)] Heq.
  - destruct c as [|b1 t]; [discriminate|]. injection Heq as -> _.
    now rewrite Hx in Hc.
  - apply app_eq_app in Heq. destruct Heq as (l & [[-> ->]|[-> ->]]).
    + destruct l as [|y l1].
      * rewrite app_nil_r in Hc. apply Ht0.
        now apply (code_point_prefix_free c' t0).
      * now rewrite (Hmax y (l1 ++ r)%list eq_refl l1) in Hc.
    + rewrite <- app_assoc in Hcp.
      apply (code_point_prefix_free c (l ++ t0)) in Hcp; [|exact Hc].
      apply app_eq_nil in Hcp. now apply Ht0.
Qed.

Lemma ill_formed_longer c r c' l :
  ill_formed c r -> ill_formed c' (l ++ r)%list -> c = (c' ++ l)%list -> l = [].
Proof.
  intros [(x & -> & Hx)|(Hne & (t0 & Ht0 & Hcp) & Hmax)]
         [(x' & -> & Hx')|(Hne' & (t0' & Ht0' & Hcp') & Hmax')] Heq.
  - now injection Heq as _ <-.
  - destruct c' as [|y c'']; [congruence|]. injection Heq as Hxy _. subst y.
    cbn [app] in Hcp'. now rewrite Hx in Hcp'.
  - subst c. cbn [app] in Hcp. now rewrite Hx' in Hcp.
  - destruct l as [|y l1]; [reflexivity|]. subst c.
    rewrite <- app_assoc in Hcp. simpl app in Hcp.
    now rewrite (Hmax' y (l1 ++ r)%list eq_refl (l1 ++ t0)%list) in Hcp.
Qed.

Lemma ill_formed_same c r c' r' :
  ill_formed c r -> ill_formed c' r' -> (c ++ r)%list = (c' ++ r')%list ->
  c = c' /\ r = r'.
Proof.
  intros H H' Heq. apply app_eq_app in Heq.
  destruct Heq as (l & [[-> ->]|[-> ->]]).
  - assert (l = []) by (now apply (ill_formed_longer (c' ++ l)%list r c' l)).
    subst l. now rewrite app_nil_r.
  - assert (l = []) by (now apply (ill_formed_longer (c ++ l)%list r' c l)).
    subst l. now rewrite app_nil_r.
Qed.

Lemma code_point_same c r c' r' :
  code_point c = true -> code_point c' = true -> (c ++ r)%list = (c' ++ r')%list ->
  c = c' /\ r = r'.
Proof.
  intros H H' Heq. apply app_eq_app in Heq.
  destruct Heq as (l & [[-> ->]|[-> ->]]).
  - apply (code_point_prefix_free c' l) in H; [|exact H'].
    subst l. now rewrite app_nil_r.
  - apply (code_point_prefix_free c l) in H'; [|exact H].
    subst l. now rewrite app_nil_r.
Qed.

Lemma ill_formed_nonempty c r : ill_formed c r -> c <> [].
Proof. intros [(x & -> & _)|(Hne & _)]; [discriminate|exact Hne]. Qed.

(** [replaced] relates a payload to one text only. *)
Lemma replaced_unique bs s : replaced bs s -> forall s', replaced bs s' -> s = s'.
Proof.
  induction 1 as [|c r s Hc Hr IH|c r s Hc Hr IH]; intros s' H'.
  - inversion H' as [|c' r' s0 Hc' _ Heq|c' r' s0 Hc' _ Heq]; [reflexivity| |].
    + (apply app_eq_nil in Heq || (symmetry in Heq; apply app_eq_nil in Heq)). destruct Heq as [-> _]. discriminate.
    + (apply app_eq_nil in Heq || (symmetry in Heq; apply app_eq_nil in Heq)). destruct Heq as [-> _].
      now apply ill_formed_nonempty in Hc'.
  - inversion H' as [Heq|c' r' s0 Hc' Hr' Heq|c' r' s0 Hc' Hr' Heq].
    + (apply app_eq_nil in Heq || (symmetry in Heq; apply app_eq_nil in Heq)). destruct Heq as [-> _]. discriminate.
    + destruct (code_point_same c' r' c r Hc' Hc Heq) as [-> ->].
      now rewrite (IH s0 Hr').
    + exfalso. symmetry in Heq.
      exact (code_point_not_ill_formed c r c' r' Hc Hc' Heq).
  - inversion H' as [Heq|c' r' s0 Hc' Hr' Heq|c' r' s0 Hc' Hr' Heq].
    + (apply app_eq_nil in Heq || (symmetry in Heq; apply app_eq_nil in Heq)). destruct Heq as [-> _].
      now apply ill_formed_nonempty in Hc.
    + exfalso. exact (code_point_not_ill_formed c' r' c r Hc' Hc Heq).
    + destruct (ill_formed_same c' r' c r Hc' Hc Heq) as [-> ->].
      now rewrite (IH s0 Hr').
Qed.

End Utf8Facts.

(** ** The extraction loop *)

Module LoopFacts.
Import Dict DictFacts ETFacts.

Lemma filter_nonempty {A} (p : A -> bool) (l : list A) :
  filter p l <> [] <-> exists a, In a l /\ p a = true.
Proof.
  split.
  - destruct (filter p l) as [|a l'] eqn:E; [congruence|]. intros _.
    exists a. apply filter_In. rewrite E. now left.
  - intros (a & Ha & Hp) E.
    assert (H : In a (filter p l)) by (apply filter_In; auto).
    now rewrite E in H.
Qed.

Lemma last_filter_true {A} (p : A -> bool) (l : list A) (dflt : A) :
  filter p l <> [] -> p (last (filter p l) dflt) = true.
Proof.
  intros Hne.
  assert (H : In (last (filter p l) dflt) (filter p l)).
  { destruct (exists_last Hne) as (l' & a & ->). rewrite last_last.
    apply in_or_app. right. now left. }
  apply filter_In in H. tauto.
Qed.

Section LastWins.
Context {A X : Type} (f : A -> option X).

Lemma fold_overwrite_none (l : list A) (acc : option X) :
  filter (fun a => is_some (f a)) l = [] -> fold_left (overwrite f) l acc = acc.
Proof.
  revert acc. induction l as [|a l IH]; intros acc; simpl; [reflexivity|].
  unfold overwrite at 2. destruct (f a); simpl; [discriminate|]. apply IH.
Qed.

Lemma fold_overwrite_last (l : list A) (acc : option X) (dflt : A) :
  filter (fun a => is_some (f a)) l <> [] ->
  fold_left (overwrite f) l acc = f (last (filter (fun a => is_some (f a)) l) dflt).
Proof.
  revert acc. induction l as [|a l IH]; intros acc; simpl; [congruence|].
  destruct (filter (fun a => is_some (f a)) l) as [|a' l'] eqn:E.
  - intros H. rewrite fold_overwrite_none by exact E.
    unfold overwrite. destruct (f a) eqn:Fa; simpl in *; [now rewrite Fa|congruence].
  - intros _. rewrite IH by discriminate.
    destruct (is_some (f a)); reflexivity.
Qed.

(** Starting from nothing, the accumulator holds a value exactly when some
    element supplies one. *)
Lemma fold_overwrite_supplied (l : list A) :
  fold_left (overwrite f) l None <> None <->
  exists a, In a l /\ is_some (f a) = true.
Proof.
  rewrite <- (filter_nonempty (fun a => is_some (f a)) l). split.
  - intros H E. apply H. now apply fold_overwrite_none.
  - intros Hne. destruct l as [|a0 l']; [now elim Hne|].
    rewrite (fold_overwrite_last (a0 :: l') None a0 Hne).
    pose proof (last_filter_true (fun a => is_some (f a)) (a0 :: l') a0 Hne) as Hl.
    cbv beta in Hl. intros E. rewrite E in Hl. discriminate Hl.
Qed.

End LastWins.

Lemma ToneCurve_not_extracted : ~ In "ToneCurve" keys_to_extract.
Proof.
  intros H.
  assert (E : existsb (String.eqb "ToneCurve") keys_to_extract = true).
  { apply existsb_exists. exists "ToneCurve". split; [exact H|apply String.eqb_refl]. }
  vm_compute in E. discriminate.
Qed.

Lemma NoDup_keys_to_extract : NoDup keys_to_extract.
Proof.
  assert (H : forall l : list string,
             (fix nodupb (l : list string) : bool :=
                match l with
                | [] => true
                | k :: l' => negb (existsb (String.eqb k) l') && nodupb l'
                end) l = true -> NoDup l).
  { induction l as [|k l IH]; intros E; constructor.
    - apply andb_prop in E. destruct E as [E _].
      intros Hin. apply negb_true_iff in E.
      assert (existsb (String.eqb k) l = true); [|congruence].
      apply existsb_exists. exists k. split; [exact Hin|apply String.eqb_refl].
    - apply IH. apply andb_prop in E. tauto. }
  apply H. vm_compute. reflexivity.
Qed.

Section Visit.
Variables (desc : Element).
Implicit Types (d : params) (key k : string).

Lemma extract_key_setting d key :
  extract_key desc d key =
  match setting key desc with Some v => Dict.set d key v | None => d end.
Proof.
  unfold extract_key, setting, findtext, text_or_empty.
  destruct (find desc (crs key)) as [c|]; [|reflexivity].
  destruct (text c); reflexivity.
Qed.

Lemma get_extract_key_same d key :
  get (extract_key desc d key) key = overwrite (setting key) (get d key) desc.
Proof.
  rewrite extract_key_setting. unfold overwrite.
  destruct (setting key desc); [apply get_set_same|reflexivity].
Qed.

Lemma get_extract_key_other d key k :
  k <> key -> get (extract_key desc d k) key = get d key.
Proof.
  intros Hne. rewrite extract_key_setting.
  destruct (setting k desc); [now apply get_set_other|reflexivity].
Qed.

Lemma overwrite_twice {X} (f : Element -> option X) acc :
  overwrite f (overwrite f acc desc) desc = overwrite f acc desc.
Proof. unfold overwrite. destruct (f desc); reflexivity. Qed.

Lemma get_fold_extract_key (l : list string) d key :
  get (fold_left (extract_key desc) l d) key =
  if in_dec string_dec key l then overwrite (setting key) (get d key) desc
  else get d key.
Proof.
  revert d. induction l as [|k l IH]; intros d; simpl; [reflexivity|].
  rewrite IH. destruct (string_dec k key) as [->|Hne].
  - rewrite get_extract_key_same, overwrite_twice.
    destruct (in_dec string_dec key l); reflexivity.
  - rewrite get_extract_key_other by exact Hne.
    destruct (in_dec string_dec key l); reflexivity.
Qed.

Lemma get_extract_tone_curve d :
  get (extract_tone_curve desc d) "ToneCurve" =
  overwrite tone_curve (get d "ToneCurve") desc.
Proof.
  unfold extract_tone_curve, overwrite, tone_curve.
  destruct (find desc (crs "ToneCurve")) as [tc|]; [|reflexivity].
  destruct (tone_curve_values tc); [reflexivity|apply get_set_same].
Qed.

Lemma get_extract_tone_curve_other d key :
  key <> "ToneCurve" -> get (extract_tone_curve desc d) key = get d key.
Proof.
  intros Hne. unfold extract_tone_curve.
  destruct (find desc (crs "ToneCurve")) as [tc|]; [|reflexivity].
  destruct (tone_curve_values tc); [reflexivity|].
  apply get_set_other. congruence.
Qed.

(** One turn of the loop, seen from an allow-listed key. *)
Lemma get_visit_key d key :
  In key keys_to_extract ->
  get (visit d desc) key = overwrite (setting key) (get d key) desc.
Proof.
  intros Hin. unfold visit, extract_keys.
  rewrite get_extract_tone_curve_other.
  - rewrite get_fold_extract_key.
    destruct (in_dec string_dec key keys_to_extract); [reflexivity|contradiction].
  - intros ->. now apply ToneCurve_not_extracted.
Qed.

(** One turn of the loop, seen from the key ToneCurve. *)
Lemma get_visit_tone_curve d :
  get (visit d desc) "ToneCurve" = overwrite tone_curve (get d "ToneCurve") desc.
Proof.
  unfold visit, extract_keys. rewrite get_extract_tone_curve, get_fold_extract_key.
  destruct (in_dec string_dec "ToneCurve" keys_to_extract) as [Hin|]; [|reflexivity].
  now apply ToneCurve_not_extracted in Hin.
Qed.

Lemma allowed_fold_extract_key (l : list string) d :
  incl l keys_to_extract ->
  Forall allowed (keys d) -> Forall allowed (keys (fold_left (extract_key desc) l d)).
Proof.
  revert d. induction l as [|k l IH]; intros d Hl Hd; simpl; [exact Hd|].
  apply IH; [intros x Hx; apply Hl; now right|].
  rewrite extract_key_setting. destruct (setting k desc); [|exact Hd].
  rewrite Forall_forall in *. intros x Hx. apply in_keys_set in Hx.
  destruct Hx as [->|Hx]; [|auto]. left. apply Hl. now left.
Qed.

Lemma allowed_visit d : Forall allowed (keys d) -> Forall allowed (keys (visit d desc)).
Proof.
  intros Hd. unfold visit, extract_tone_curve.
  assert (H : Forall allowed (keys (extract_keys desc d))).
  { apply allowed_fold_extract_key; [apply incl_refl|exact Hd]. }
  destruct (find desc (crs "ToneCurve")) as [tc|]; [|exact H].
  destruct (tone_curve_values tc); [exact H|].
  rewrite Forall_forall in *. intros x Hx. apply in_keys_set in Hx.
  destruct Hx as [->|Hx]; [now right|auto].
Qed.

Lemma NoDup_visit d : NoDup (keys d) -> NoDup (keys (visit d desc)).
Proof.
  intros Hd. unfold visit, extract_tone_curve.
  assert (H : NoDup (keys (extract_keys desc d))).
  { unfold extract_keys. generalize keys_to_extract as l. intros l. revert d Hd.
    induction l as [|k l IH]; intros d Hd; simpl; [exact Hd|].
    apply IH. rewrite extract_key_setting.
    destruct (setting k desc); [now apply NoDup_keys_set|exact Hd]. }
  destruct (find desc (crs "ToneCurve")) as [tc|]; [|exact H].
  destruct (tone_curve_values tc); [exact H|now apply NoDup_keys_set].
Qed.

End Visit.

Section Loop.
Variable l : list Element.
Implicit Types (d : params).

Lemma get_fold_visit_key d key :
  In key keys_to_extract ->
  get (fold_left visit l d) key = fold_left (overwrite (setting key)) l (get d key).
Proof.
  intros Hin. revert d. induction l as [|desc l' IH]; intros d; simpl; [reflexivity|].
  now rewrite IH, get_visit_key.
Qed.

Lemma get_fold_visit_tone_curve d :
  get (fold_left visit l d) "ToneCurve" =
  fold_left (overwrite tone_curve) l (get d "ToneCurve").
Proof.
  revert d. induction l as [|desc l' IH]; intros d; simpl; [reflexivity|].
  now rewrite IH, get_visit_tone_curve.
Qed.

Lemma allowed_fold_visit d :
  Forall allowed (keys d) -> Forall allowed (keys (fold_left visit l d)).
Proof.
  revert d. induction l as [|desc l' IH]; intros d Hd; simpl; [exact Hd|].
  apply IH. now apply allowed_visit.
Qed.

Lemma NoDup_fold_visit d :
  NoDup (keys d) -> NoDup (keys (fold_left visit l d)).
Proof.
  revert d. induction l as [|desc l' IH]; intros d Hd; simpl; [exact Hd|].
  apply IH. now apply NoDup_visit.
Qed.

End Loop.

End LoopFacts.

(** ** [parse_xmp] *)

Module ParseFacts.
Import Dict DictFacts ETFacts Utf8Facts LoopFacts.

Lemma size_child c cs : In c cs -> size c <= list_sum (map size cs).
Proof.
  induction cs as [|x cs IH]; simpl; intros H; [contradiction|].
  destruct H as [->|H]; [lia|]. specialize (IH H). lia.
Qed.

Lemma below_smaller e d : below e d -> size d < size e.
Proof.
  induction 1 as [e c Hc | e c d Hc _ IH];
    destruct e as [t a x tl cs]; simpl in *; apply size_child in Hc; lia.
Qed.

Lemma not_below_self e : ~ below e e.
Proof. intros H. apply below_smaller in H. lia. Qed.

Lemma in_descriptions root d :
  In d (descriptions root) <-> below root d /\ tag d = rdf "Description".
Proof. apply in_findall_descendants. Qed.

Lemma filter_and {A} (p q : A -> bool) (l : list A) :
  filter (fun a => p a && q a) l = filter q (filter p l).
Proof.
  induction l as [|a l IH]; simpl; [reflexivity|].
  destruct (p a); simpl; [destruct (q a)|]; now rewrite IH.
Qed.

Lemma in_texts l s : In s (texts l) <-> exists li, In li l /\ text li = Some s.
Proof.
  induction l as [|x l IH]; simpl.
  - split; [contradiction|]. now intros (li & [] & _).
  - destruct (text x) as [sx|] eqn:E; simpl; rewrite IH; split.
    + intros [<-|(li & Hli & Ht)]; eauto.
    + intros (li & [<-|Hli] & Ht); [left; congruence|eauto].
    + intros (li & Hli & Ht); eauto.
    + intros (li & [<-|Hli] & Ht); [congruence|eauto].
Qed.

(** The points collected under a tone curve element are the texts of the
    [rdf:li] elements below it. *)
Lemma in_tone_curve_values tc s :
  In s (tone_curve_values tc) <->
  exists li, below tc li /\ tag li = rdf "li" /\ text li = Some s.
Proof.
  unfold tone_curve_values. rewrite in_texts. split.
  - intros (li & Hli & Ht). apply in_findall_descendants in Hli. exists li. tauto.
  - intros (li & Hb & Hg & Ht). exists li. split; [|exact Ht].
    apply in_findall_descendants. tauto.
Qed.

Lemma tone_curve_values_nonempty tc :
  tone_curve_values tc <> [] <-> has_curve_point tc.
Proof.
  unfold has_curve_point. split.
  - destruct (tone_curve_values tc) as [|s l] eqn:E; [congruence|]. intros _.
    assert (H : In s (tone_curve_values tc)) by (rewrite E; now left).
    apply in_tone_curve_values in H. destruct H as (li & Hb & Hg & Ht).
    exists li. repeat split; auto. congruence.
  - intros (li & Hb & Hg & Ht) E. destruct (text li) as [s|] eqn:Es; [|congruence].
    assert (H : In s (tone_curve_values tc)).
    { apply in_tone_curve_values. eauto. }
    now rewrite E in H.
Qed.

(** A description supplies a tone curve exactly when its first
    [crs:ToneCurve] child has a point below it. *)
Lemma tone_curve_supplied desc :
  is_some (tone_curve desc) = true <->
  exists tc, first_child desc (crs "ToneCurve") tc /\ has_curve_point tc.
Proof.
  unfold tone_curve. split.
  - destruct (find desc (crs "ToneCurve")) as [tc|] eqn:E; [|discriminate].
    intros H. exists tc. split; [now apply find_first_child|].
    apply tone_curve_values_nonempty.
    destruct (tone_curve_values tc); [discriminate|congruence].
  - intros (tc & Hf & Hp). apply find_first_child in Hf. rewrite Hf.
    apply tone_curve_values_nonempty in Hp.
    destruct (tone_curve_values tc); [congruence|reflexivity].
Qed.

Section Parse.
Variable fromstring : string -> string + Element.

Lemma parse_xmp_parsed b root :
  fromstring (Utf8.decoded b) = inr root ->
  parse_xmp fromstring b = ([], Return (collect root)).
Proof.
  intros H. unfold parse_xmp, ET_fromstring.
  rewrite decode_replace_decoded. simpl. now rewrite H.
Qed.

Lemma parse_xmp_rejected b msg :
  fromstring (Utf8.decoded b) = inl msg ->
  parse_xmp fromstring b = (["Error parsing XMP metadata: " ++ msg], Return Dict.empty).
Proof.
  intros H. unfold parse_xmp, ET_fromstring.
  rewrite decode_replace_decoded. simpl. now rewrite H.
Qed.

Lemma parse_xmp_returns b :
  exists out d, parse_xmp fromstring b = (out, Return d).
Proof.
  destruct (fromstring (Utf8.decoded b)) as [msg|root] eqn:E.
  - rewrite (parse_xmp_rejected b msg E). eauto.
  - rewrite (parse_xmp_parsed b root E). eauto.
Qed.

End Parse.

End ParseFacts.

(** ** [extract_editing_metadata] and the entry point *)

Module ExtractFacts.
Import Dict DictFacts LoopFacts ParseFacts.

Lemma find_xmp_none page_tags :
  Forall (fun t => name t <> "XMP") page_tags -> find_xmp page_tags = None.
Proof.
  induction 1 as [|t l Ht _ IH]; simpl; [reflexivity|].
  destruct (String.eqb (name t) "XMP") eqn:E; [|exact IH].
  apply String.eqb_eq in E. contradiction.
Qed.

Lemma for_each_print {A} (f : A -> string) (l : list A) :
  for_each l (fun a => ([f a], Return tt)) = (map f l, Return tt).
Proof.
  induction l as [|a l IH]; simpl; [reflexivity|].
  rewrite IH. reflexivity.
Qed.

Section Extract.
Variable fromstring : string -> string + Element.
Variable TiffFile_open : string -> exn + TiffFile.
Variable index_error_message : string.

Lemma parse_xmp_NoDup b out d :
  parse_xmp fromstring b = (out, Return d) -> NoDup (keys d).
Proof.
  destruct (fromstring (Utf8.decoded b)) as [msg|root] eqn:E.
  - rewrite (parse_xmp_rejected fromstring b msg E). intros [= _ <-]. apply NoDup_nil.
  - rewrite (parse_xmp_parsed fromstring b root E). intros [= _ <-].
    apply NoDup_fold_visit. apply NoDup_nil.
Qed.

Lemma extract_open_fails path e :
  TiffFile_open path = inl e ->
  extract_editing_metadata fromstring TiffFile_open index_error_message path =
  (["Error extracting editing metadata: " ++ exn_str e], Return None).
Proof.
  intros H. unfold extract_editing_metadata. now rewrite H.
Qed.

Lemma extract_no_page path tif :
  TiffFile_open path = inr tif -> pages tif = [] ->
  extract_editing_metadata fromstring TiffFile_open index_error_message path =
  (["Error extracting editing metadata: " ++ index_error_message], Return None).
Proof.
  intros H Hp. unfold extract_editing_metadata, first_page.
  rewrite H. simpl. now rewrite Hp.
Qed.

Lemma extract_no_xmp path tif page more :
  TiffFile_open path = inr tif -> pages tif = page :: more ->
  find_xmp (tags page) = None ->
  extract_editing_metadata fromstring TiffFile_open index_error_message path =
  (["No XMP metadata found in the file."], Return None).
Proof.
  intros H Hp Hx. unfold extract_editing_metadata, first_page.
  rewrite H. simpl. rewrite Hp. simpl. now rewrite Hx.
Qed.

Lemma extract_not_bytes path tif page more msg :
  TiffFile_open path = inr tif -> pages tif = page :: more ->
  find_xmp (tags page) = Some (NotBytes msg) ->
  extract_editing_metadata fromstring TiffFile_open index_error_message path =
  (["Error extracting editing metadata: " ++ msg], Return None).
Proof.
  intros H Hp Hx. unfold extract_editing_metadata, first_page.
  rewrite H. simpl. rewrite Hp. simpl. now rewrite Hx.
Qed.

Lemma extract_xmp path tif page more xmp_data out d :
  TiffFile_open path = inr tif -> pages tif = page :: more ->
  find_xmp (tags page) = Some (Bytes xmp_data) ->
  parse_xmp fromstring xmp_data = (out, Return d) ->
  extract_editing_metadata fromstring TiffFile_open index_error_message path =
  (out, Return (Some d)).
Proof.
  intros H Hp Hx Hparse. unfold extract_editing_metadata, first_page.
  rewrite H. simpl. rewrite Hp. simpl. rewrite Hx. simpl parse_xmp_of.
  rewrite Hparse. simpl. now rewrite app_nil_r.
Qed.

(** Whatever the path, the call returns; a mapping it returns has one
    entry per key. *)
Lemma extract_returns path :
  exists out r,
    extract_editing_metadata fromstring TiffFile_open index_error_message path =
      (out, Return r) /\
    match r with Some d => NoDup (keys d) | None => True end.
Proof.
  destruct (TiffFile_open path) as [e|tif] eqn:H.
  - rewrite (extract_open_fails path e H). do 2 eexists; split; [reflexivity|exact I].
  - destruct (pages tif) as [|page more] eqn:Hp.
    + rewrite (extract_no_page path tif H Hp). do 2 eexists; split; [reflexivity|exact I].
    + destruct (find_xmp (tags page)) as [[xmp_data|msg]|] eqn:Hx.
      * destruct (parse_xmp_returns fromstring xmp_data) as (out & d & Hparse).
        rewrite (extract_xmp path tif page more xmp_data out d H Hp Hx Hparse).
        exists out, (Some d). split; [reflexivity|].
        now apply (parse_xmp_NoDup xmp_data out d).
      * rewrite (extract_not_bytes path tif page more msg H Hp Hx).
        do 2 eexists; split; [reflexivity|exact I].
      * rewrite (extract_no_xmp path tif page more H Hp Hx). do 2 eexists; split; [reflexivity|exact I].
Qed.

End Extract.

End ExtractFacts.

(** ** The samples, evaluated *)

Module Checks.

Example decode_ascii :
  Utf8.decode (Samples.bytes Samples.contrast_xml) Utf8.strict = inr Samples.contrast_xml.
Proof. vm_compute. reflexivity. Qed.

Example decode_invalid_replace :
  Utf8.decode Samples.invalid_utf8 Utf8.replace =
  inr ("<a>" ++ Utf8.replacement_character ++ "</a>").
Proof. vm_compute. reflexivity. Qed.

Example decode_invalid_strict :
  Utf8.decode Samples.invalid_utf8 Utf8.strict =
  inl (Exn UnicodeDecodeError "'utf-8' codec can't decode bytes: invalid start byte").
Proof. vm_compute. reflexivity. Qed.

Example parse_invalid :
  parse_xmp Samples.fromstring Samples.invalid_utf8 = ([], Return Dict.empty).
Proof. vm_compute. reflexivity. Qed.

(** E0 80 is two ill-formed sequences, E0 A0 at the end of the data one. *)
Example decode_maximal_subparts :
  Utf8.decode [xe0; x80; x41; xe0; xa0] Utf8.replace =
  inr (Utf8.replacement_character ++ Utf8.replacement_character ++ "A" ++
       Utf8.replacement_character).
Proof. vm_compute. reflexivity. Qed.

Example collect_curve :
  collect Samples.curve_doc =
  [("Exposure", VStr "0.50"); ("ToneCurve", VList ["0, 0"; "32, 22"; "255, 255"])].
Proof. vm_compute. reflexivity. Qed.

Example main_curve :
  main Samples.fromstring Samples.TiffFile_open Samples.index_error_message Samples.repr =
  (["Extracted Editing Metadata:"; "Exposure: 0.50";
    "ToneCurve: ['0, 0', '32, 22', '255, 255']"], Return tt).
Proof. vm_compute. reflexivity. Qed.

Example extract_missing_file :
  extract_editing_metadata Samples.fromstring Samples.TiffFile_open
    Samples.index_error_message "gone.tif" =
  (["Error extracting editing metadata: [Errno 2] No such file or directory: 'gone.tif'"],
   Return None).
Proof. vm_compute. reflexivity. Qed.

Example extract_str_valued_tag :
  extract_editing_metadata MoreSamples.fromstring MoreSamples.TiffFile_open
    Samples.index_error_message "ascii.tif" =
  (["Error extracting editing metadata: 'str' object has no attribute 'decode'"],
   Return None).
Proof. vm_compute. reflexivity. Qed.

End Checks.

(** * The claims *)

Module Claims.
Import Dict DictFacts ETFacts Utf8Facts LoopFacts ParseFacts ExtractFacts.

Ltac in_keys := simpl; repeat (first [left; reflexivity | right]).

(** C1.  For every byte payload and every parser, [parse_xmp] returns a
    mapping, and each of its keys is a name of the allow-list
    [keys_to_extract] or the string ToneCurve. *)
Theorem parse_xmp_keys_allowed (fromstring : string -> string + Element) (b : list byte) :
  exists out d,
    parse_xmp fromstring b = (out, Return d) /\
    Forall (fun k => In k keys_to_extract \/ k = "ToneCurve") (keys d).
Proof.
  destruct (fromstring (Utf8.decoded b)) as [msg|root] eqn:E.
  - rewrite (parse_xmp_rejected fromstring b msg E).
    do 2 eexists. split; [reflexivity|]. constructor.
  - rewrite (parse_xmp_parsed fromstring b root E).
    do 2 eexists. split; [reflexivity|].
    apply (allowed_fold_visit (descriptions root) Dict.empty). constructor.
Qed.

Lemma descriptions_setting_split key root :
  descriptions_setting key root =
  ((if is_Description root && is_some (setting key root) then [root] else []) ++
   filter (fun d => is_some (setting key d)) (descriptions root))%list.
Proof.
  unfold descriptions_setting, descriptions, findall_descendants, is_Description.
  rewrite iter_unfold. simpl. rewrite filter_and.
  destruct (has_tag (rdf "Description") root && is_some (setting key root)); reflexivity.
Qed.

Lemma last_cons_nonempty {A} (a : A) (l : list A) (dflt : A) :
  l <> [] -> last (a :: l) dflt = last l dflt.
Proof. destruct l; [congruence|reflexivity]. Qed.

(** C2.  When an allow-listed [crs:key] element appears in several
    [rdf:Description] elements of the document, the mapping returned by
    [parse_xmp] holds for [key] the value of the last of them in document
    order: the text of its (first) [crs:key] child [c].  The witness is the
    document with Contrast 10 and then 25, whose mapping has Contrast 25. *)
Theorem parse_xmp_last_description_wins
    (fromstring : string -> string + Element) (b : list byte)
    (root : Element) (key : string) (c : Element) :
  fromstring (Utf8.decoded b) = inr root ->
  In key keys_to_extract ->
  2 <= List.length (descriptions_setting key root) ->
  first_child (last (descriptions_setting key root) root) (crs key) c ->
  exists d,
    parse_xmp fromstring b = ([], Return d) /\
    get d key = Some (VStr (text_or_empty c)).
Proof.
  intros Hparse Hkey Hseveral Hc.
  exists (collect root). split; [now apply parse_xmp_parsed|].
  unfold collect. rewrite get_fold_visit_key by exact Hkey.
  rewrite descriptions_setting_split in Hseveral, Hc.
  set (found := filter (fun d => is_some (setting key d)) (descriptions root)) in *.
  assert (Hne : found <> []).
  { intros E. rewrite E in Hseveral.
    destruct (is_Description root && is_some (setting key root)); simpl in Hseveral; lia. }
  assert (Hlast : last ((if is_Description root && is_some (setting key root)
                         then [root] else []) ++ found)%list root = last found root).
  { destruct (is_Description root && is_some (setting key root)); simpl app.
    - now apply last_cons_nonempty.
    - reflexivity. }
  rewrite Hlast in Hc. simpl get.
  rewrite (fold_overwrite_last (setting key) (descriptions root) None root Hne).
  fold found. apply find_first_child in Hc. unfold setting. now rewrite Hc.
Qed.

Lemma parse_xmp_last_description_wins_witness :
  exists d,
    parse_xmp Samples.fromstring (Samples.bytes Samples.contrast_xml) = ([], Return d) /\
    get d "Contrast" = Some (VStr "25").
Proof.
  apply (parse_xmp_last_description_wins Samples.fromstring
           (Samples.bytes Samples.contrast_xml) Samples.contrast_doc "Contrast"
           (Samples.E (crs "Contrast") (Some "25") [])).
  - vm_compute. reflexivity.
  - in_keys.
  - vm_compute. lia.
  - exists [], []. split; [vm_compute; reflexivity|]. split; [reflexivity|].
    intros x [].
Defined.

(** C4.  For a payload whose decoded text the parser rejects as not
    well-formed (it raises [ParseError] with message [msg]), [parse_xmp]
    prints one diagnostic line carrying the message and returns the empty
    mapping; it does not raise. *)
Theorem parse_xmp_malformed
    (fromstring : string -> string + Element) (b : list byte) (msg : string) :
  fromstring (Utf8.decoded b) = inl msg ->
  parse_xmp fromstring b =
  (["Error parsing XMP metadata: " ++ msg], Return Dict.empty).
Proof. apply parse_xmp_rejected. Qed.

Lemma parse_xmp_malformed_witness :
  parse_xmp Samples.fromstring (Samples.bytes Samples.truncated_xml) =
  (["Error parsing XMP metadata: unclosed token: line 1, column 0"], Return Dict.empty).
Proof.
  apply (parse_xmp_malformed Samples.fromstring
           (Samples.bytes Samples.truncated_xml) "unclosed token: line 1, column 0").
  vm_compute. reflexivity.
Defined.

(** C3, as first stated, fails: in the sample document the only
    [rdf:Description] has a [crs:ToneCurve] child (its second) with an
    [rdf:li] holding text below it, yet the mapping [parse_xmp] returns has
    no key at all: only the first [crs:ToneCurve] child is looked at. *)
Lemma tone_curve_second_child_ignored :
  parse_xmp Samples.fromstring (Samples.bytes Samples.two_curves_xml) =
    ([], Return Dict.empty) /\
  Samples.fromstring (Utf8.decoded (Samples.bytes Samples.two_curves_xml)) =
    inr Samples.two_curves_doc /\
  In Samples.two_curves_desc (iter Samples.two_curves_doc) /\
  tag Samples.two_curves_desc = rdf "Description" /\
  In Samples.second_curve (children Samples.two_curves_desc) /\
  tag Samples.second_curve = crs "ToneCurve" /\
  has_curve_point Samples.second_curve.
Proof.
  split; [vm_compute; reflexivity|].
  split; [vm_compute; reflexivity|].
  split; [simpl; auto|].
  split; [reflexivity|].
  split; [simpl; auto|].
  split; [reflexivity|].
  exists (Samples.E (rdf "li") (Some "0, 0") []).
  split; [|split; [reflexivity|discriminate]].
  apply below_deeper with (Samples.E (rdf "Seq") None [Samples.E (rdf "li") (Some "0, 0") []]).
  - simpl. auto.
  - apply below_child. simpl. auto.
Qed.

(** C3, amended.  For a document whose root is not itself an
    [rdf:Description]: the key ToneCurve is in the mapping returned by
    [parse_xmp] exactly when some [rdf:Description] of the document has, as
    its first [crs:ToneCurve] child, an element with an [rdf:li] holding
    text below it.  The value is then the sequence of points of the last
    such description in document order: non-empty, and made of the texts of
    the [rdf:li] elements met, in order, in the traversal of the tone curve
    element.  A description that supplies no tone curve leaves the entry as
    it was. *)
Theorem parse_xmp_tone_curve
    (fromstring : string -> string + Element) (b : list byte) (root : Element) :
  fromstring (Utf8.decoded b) = inr root ->
  tag root <> rdf "Description" ->
  exists d,
    parse_xmp fromstring b = ([], Return d) /\
    (In "ToneCurve" (keys d) <->
     exists desc tc,
       In desc (iter root) /\ tag desc = rdf "Description" /\
       first_child desc (crs "ToneCurve") tc /\ has_curve_point tc) /\
    (forall tc,
       let sources :=
         filter (fun desc => is_Description desc && is_some (tone_curve desc))
                (iter root) in
       sources <> [] ->
       first_child (last sources root) (crs "ToneCurve") tc ->
       tone_curve_values tc <> [] /\
       get d "ToneCurve" = Some (VList (tone_curve_values tc))) /\
    (forall tc,
       tone_curve_values tc = texts (filter (has_tag (rdf "li")) (List.tl (iter tc))) /\
       forall s, In s (tone_curve_values tc) <->
                 exists li, below tc li /\ tag li = rdf "li" /\ text li = Some s) /\
    (forall acc desc,
       tone_curve desc = None ->
       get (visit acc desc) "ToneCurve" = get acc "ToneCurve").
Proof.
  intros Hparse Hroot. exists (collect root).
  split; [now apply parse_xmp_parsed|].
  assert (Hget : get (collect root) "ToneCurve" =
                 fold_left (overwrite tone_curve) (descriptions root) None).
  { unfold collect. now rewrite get_fold_visit_tone_curve. }
  assert (Hnot : is_Description root = false).
  { unfold is_Description, has_tag. now apply String.eqb_neq. }
  assert (Hall : forall desc,
            In desc (iter root) /\ tag desc = rdf "Description" <->
            In desc (descriptions root)).
  { intros desc. rewrite in_descriptions, iter_unfold. split.
    - intros [[<-|Hin] Ht]; [contradiction|]. split; [now apply in_iter_below|exact Ht].
    - intros [Hb Ht]. split; [right; now apply below_in_iter|exact Ht]. }
  assert (Hsources :
            filter (fun desc => is_Description desc && is_some (tone_curve desc)) (iter root) =
            filter (fun desc => is_some (tone_curve desc)) (descriptions root)).
  { rewrite iter_unfold. simpl filter. rewrite Hnot. simpl andb. cbv iota.
    rewrite filter_and. reflexivity. }
  split; [|split; [|split]].
  - rewrite in_keys_get, Hget, fold_overwrite_supplied. split.
    + intros (desc & Hin & Hs).
      apply Hall in Hin. apply tone_curve_supplied in Hs.
      destruct Hs as (tc & Hf & Hp). exists desc, tc. tauto.
    + intros (desc & tc & Hb & Ht & Hf & Hp). exists desc. split.
      * apply Hall. tauto.
      * apply tone_curve_supplied. eauto.
  - intros tc sources Hne Hf. unfold sources in *. rewrite Hsources in *.
    rewrite Hget.
    rewrite (fold_overwrite_last tone_curve _ None root Hne).
    pose proof (last_filter_true _ _ root Hne) as Hl. cbv beta in Hl.
    apply find_first_child in Hf. unfold tone_curve in *. rewrite Hf in *.
    destruct (tone_curve_values tc); [discriminate Hl|].
    split; [discriminate|reflexivity].
  - intros tc. split; [|intros s; apply in_tone_curve_values].
    unfold tone_curve_values, findall_descendants. now rewrite iter_unfold.
  - intros acc desc Hnone. rewrite get_visit_tone_curve. unfold overwrite.
    now rewrite Hnone.
Qed.

Lemma parse_xmp_tone_curve_witness :
  exists d,
    parse_xmp Samples.fromstring (Samples.bytes Samples.curve_xml) = ([], Return d) /\
    get d "ToneCurve" = Some (VList ["0, 0"; "32, 22"; "255, 255"]) /\
    get d "Exposure" = Some (VStr "0.50").
Proof.
  destruct (parse_xmp_tone_curve Samples.fromstring
              (Samples.bytes Samples.curve_xml) Samples.curve_doc)
    as (d & Hd & _ & Hlast & _).
  - vm_compute. reflexivity.
  - vm_compute. discriminate.
  - exists d. split; [exact Hd|].
    destruct (Hlast Samples.curve_elem) as [_ Hget].
    + vm_compute. discriminate.
    + exists [Samples.E (crs "Exposure") (Some "0.50") []], [].
      split; [vm_compute; reflexivity|]. split; [reflexivity|].
      intros x [<-|[]]. vm_compute. discriminate.
    + split; [exact Hget|].
      assert (E : parse_xmp Samples.fromstring (Samples.bytes Samples.curve_xml) =
                  ([], Return (collect Samples.curve_doc))) by (vm_compute; reflexivity).
      rewrite E in Hd. injection Hd as <-. vm_compute. reflexivity.
Defined.

(** C7, as first stated, fails: the sample description has a [crs:Contrast]
    child, the first and only one, without text, and still the mapping
    [parse_xmp] returns has an entry for Contrast, the empty string. *)
Lemma empty_setting_is_written :
  first_child Samples.empty_contrast_desc (crs "Contrast") Samples.empty_contrast /\
  text Samples.empty_contrast = None /\
  get Dict.empty "Contrast" = (None : option param_value) /\
  get (visit Dict.empty Samples.empty_contrast_desc) "Contrast" = Some (VStr "") /\
  parse_xmp Samples.fromstring (Samples.bytes Samples.empty_contrast_xml) =
    ([], Return [("Contrast", VStr "")]).
Proof.
  split.
  - exists [], []. split; [reflexivity|]. split; [reflexivity|]. intros x [].
  - repeat split; vm_compute; reflexivity.
Qed.

(** C7, amended.  For an allow-listed name, one turn of the loop consults
    the first [crs:key] child of the description.  If there is one, the
    entry for [key] is written: its value is the text of that child, or the
    empty string when the child has no text.  If the description has no
    such child, nothing is written for [key]. *)
Theorem visit_writes_first_child (desc : Element) (acc : params) (key : string) :
  In key keys_to_extract ->
  (forall c, first_child desc (crs key) c ->
     extract_key desc acc key = Dict.set acc key (VStr (text_or_empty c)) /\
     get (visit acc desc) key = Some (VStr (text_or_empty c))) /\
  ((forall c, In c (children desc) -> tag c <> crs key) ->
     extract_key desc acc key = acc /\
     get (visit acc desc) key = get acc key).
Proof.
  intros Hkey. split.
  - intros c Hc. apply find_first_child in Hc.
    rewrite extract_key_setting, get_visit_key by exact Hkey.
    unfold overwrite, setting. rewrite Hc. split; reflexivity.
  - intros Hnone. apply find_none in Hnone.
    rewrite extract_key_setting, get_visit_key by exact Hkey.
    unfold overwrite, setting. rewrite Hnone. split; reflexivity.
Qed.

Lemma visit_writes_first_child_witness :
  get (visit [("Contrast", VStr "10")] Samples.contrast_second) "Contrast" =
    Some (VStr "25") /\
  get (visit [("Contrast", VStr "10")] Samples.empty_contrast_desc) "Contrast" =
    Some (VStr "") /\
  get (visit [("Contrast", VStr "10")] Samples.curve_desc) "Contrast" =
    Some (VStr "10").
Proof.
  assert (Hkey : In "Contrast" keys_to_extract) by in_keys.
  split; [|split].
  - apply (proj1 (visit_writes_first_child Samples.contrast_second
                    [("Contrast", VStr "10")] "Contrast" Hkey)
             (Samples.E (crs "Contrast") (Some "25") [])).
    exists [], []. split; [reflexivity|]. split; [reflexivity|]. intros x [].
  - apply (proj1 (visit_writes_first_child Samples.empty_contrast_desc
                    [("Contrast", VStr "10")] "Contrast" Hkey)
             Samples.empty_contrast).
    exists [], []. split; [reflexivity|]. split; [reflexivity|]. intros x [].
  - apply (proj2 (visit_writes_first_child Samples.curve_desc
                    [("Contrast", VStr "10")] "Contrast" Hkey)).
    intros c [<-|[<-|[]]]; vm_compute; discriminate.
Defined.

(** C8.  The code falls short of the claim, and of its own comment on
    line 113 ("all rdf:Description elements"): the root of the sample
    document is an [rdf:Description] with a [crs:Contrast] child holding
    10, it is not among the elements the loop of line 114 runs over, and
    [parse_xmp] returns the empty mapping where Contrast 10 is due. *)
Lemma root_description_not_visited :
  Samples.fromstring (Utf8.decoded (Samples.bytes Samples.root_description_xml)) =
    inr Samples.root_description_doc /\
  In Samples.root_description_doc (iter Samples.root_description_doc) /\
  tag Samples.root_description_doc = rdf "Description" /\
  setting "Contrast" Samples.root_description_doc = Some (VStr "10") /\
  ~ In Samples.root_description_doc (descriptions Samples.root_description_doc) /\
  parse_xmp Samples.fromstring (Samples.bytes Samples.root_description_xml) =
    ([], Return Dict.empty).
Proof.
  split; [vm_compute; reflexivity|].
  split; [simpl; auto|].
  split; [reflexivity|].
  split; [vm_compute; reflexivity|].
  split; [|vm_compute; reflexivity].
  vm_compute. tauto.
Qed.

(** What the loop of line 114 runs over, as the code stands: the elements
    below the root of the parsed document, at any depth, whose qualified
    name is [rdf:Description], in document order, and never the root.
    Every allow-listed name for which such an element has a [crs:] child
    is a key of the returned mapping. *)
Theorem parse_xmp_visits_descriptions_below_root
    (fromstring : string -> string + Element) (b : list byte) (root : Element) :
  fromstring (Utf8.decoded b) = inr root ->
  parse_xmp fromstring b =
    ([], Return (fold_left visit (descriptions root) Dict.empty)) /\
  descriptions root = filter (has_tag (rdf "Description")) (List.tl (iter root)) /\
  (forall d, In d (descriptions root) <-> below root d /\ tag d = rdf "Description") /\
  ~ In root (descriptions root) /\
  (forall d key c,
     below root d -> tag d = rdf "Description" ->
     In key keys_to_extract -> In c (children d) -> tag c = crs key ->
     In key (keys (fold_left visit (descriptions root) Dict.empty))).
Proof.
  intros Hparse.
  split; [now apply parse_xmp_parsed|].
  split; [unfold descriptions, findall_descendants; now rewrite iter_unfold|].
  split; [intros d; apply in_descriptions|].
  split.
  - intros H. apply in_descriptions in H. destruct H as [H _].
    now apply not_below_self in H.
  - intros d key c Hb Ht Hkey Hc Hc'.
    apply in_keys_get. rewrite get_fold_visit_key by exact Hkey. simpl get.
    apply fold_overwrite_supplied. exists d. split.
    + apply in_descriptions. tauto.
    + unfold setting. destruct (find d (crs key)) eqn:E; [reflexivity|].
      exfalso. apply (proj1 (find_none d (crs key)) E c Hc Hc').
Qed.

Lemma parse_xmp_visits_descriptions_below_root_witness :
  parse_xmp Samples.fromstring (Samples.bytes Samples.contrast_xml) =
    ([], Return [("Contrast", VStr "25")]) /\
  descriptions Samples.contrast_doc = [Samples.contrast_first; Samples.contrast_second].
Proof.
  destruct (parse_xmp_visits_descriptions_below_root Samples.fromstring
              (Samples.bytes Samples.contrast_xml) Samples.contrast_doc)
    as (Hp & Hd & _).
  - vm_compute. reflexivity.
  - split.
    + rewrite Hp. vm_compute. reflexivity.
    + rewrite Hd. vm_compute. reflexivity.
Defined.

(** C5.  For a file that opens as a TIFF container and whose first page
    has no tag named exactly XMP, [extract_editing_metadata] prints the
    diagnostic and returns [None]: not a mapping, and no exception. *)
Theorem extract_without_xmp_tag
    (fromstring : string -> string + Element)
    (TiffFile_open : string -> exn + TiffFile) (index_error_message : string)
    (path : string) (tif : TiffFile) (page : TiffPage) (more : list TiffPage) :
  TiffFile_open path = inr tif ->
  pages tif = page :: more ->
  Forall (fun t => name t <> "XMP") (tags page) ->
  extract_editing_metadata fromstring TiffFile_open index_error_message path =
  (["No XMP metadata found in the file."], Return None).
Proof.
  intros H Hp Hx. apply (extract_no_xmp _ _ _ path tif page more H Hp).
  now apply find_xmp_none.
Qed.

Lemma extract_without_xmp_tag_witness :
  extract_editing_metadata Samples.fromstring Samples.TiffFile_open
    Samples.index_error_message "plain.tif" =
  (["No XMP metadata found in the file."], Return None).
Proof.
  apply (extract_without_xmp_tag Samples.fromstring Samples.TiffFile_open
           Samples.index_error_message "plain.tif" Samples.tiff_without_xmp
           {| tags := [ {| name := "ImageWidth"; value := Bytes [] |};
                        {| name := "xmp"; value := Bytes (Samples.bytes Samples.contrast_xml) |} ] |}
           []).
  - reflexivity.
  - reflexivity.
  - repeat constructor; simpl; discriminate.
Defined.

(** C6, as first stated, fails: with a file whose XMP payload is cut off,
    the extraction result is a mapping (the empty one), not [None], and
    the entry point still prints that no metadata could be extracted. *)
Lemma empty_mapping_reported_as_nothing :
  extract_editing_metadata Samples.fromstring Samples.TiffFile_open_truncated
    Samples.index_error_message file_path =
    (["Error parsing XMP metadata: unclosed token: line 1, column 0"],
     Return (Some Dict.empty)) /\
  main Samples.fromstring Samples.TiffFile_open_truncated
    Samples.index_error_message Samples.repr =
    (["Error parsing XMP metadata: unclosed token: line 1, column 0";
      "No editing metadata could be extracted."], Return tt).
Proof. split; vm_compute; reflexivity. Qed.

(** C6, amended.  The entry point runs the extraction on the fixed path;
    after what the extraction printed, it prints the heading and one
    [key: value] line per entry, in insertion order, when the result is a
    mapping with at least one entry (its keys are pairwise distinct), and
    the line saying that no metadata could be extracted when the result is
    [None] or the empty mapping. *)
Theorem main_report
    (fromstring : string -> string + Element)
    (TiffFile_open : string -> exn + TiffFile) (index_error_message : string)
    (repr : string -> string) :
  exists out r,
    extract_editing_metadata fromstring TiffFile_open index_error_message file_path =
      (out, Return r) /\
    main fromstring TiffFile_open index_error_message repr =
      ((out ++ match r with
               | Some (item :: more) =>
                   "Extracted Editing Metadata:" :: map (line repr) (item :: more)
               | Some [] | None => ["No editing metadata could be extracted."]
               end)%list, Return tt) /\
    match r with Some d => NoDup (keys d) | None => True end.
Proof.
  destruct (extract_returns fromstring TiffFile_open index_error_message file_path)
    as (out & r & Hr & Hnd).
  exists out, r. split; [exact Hr|]. split; [|exact Hnd].
  unfold main. rewrite Hr.
  destruct r as [[|item more]|];
    unfold report; cbn [truthy Dict.nonempty items_of ret print bind];
    unfold Dict.items, print; try rewrite for_each_print; reflexivity.
Qed.

(** C9.  Whatever the path, [extract_editing_metadata] returns and does
    not raise.  When opening the file raises, it prints one diagnostic
    line carrying the message of the exception and returns [None]; so it
    does when the opened file has no first page to read. *)
Theorem extract_never_raises
    (fromstring : string -> string + Element)
    (TiffFile_open : string -> exn + TiffFile) (index_error_message : string)
    (path : string) :
  (exists out r,
     extract_editing_metadata fromstring TiffFile_open index_error_message path =
     (out, Return r)) /\
  match TiffFile_open path with
  | inl e =>
      extract_editing_metadata fromstring TiffFile_open index_error_message path =
      (["Error extracting editing metadata: " ++ exn_str e], Return None)
  | inr tif =>
      match pages tif with
      | [] =>
          extract_editing_metadata fromstring TiffFile_open index_error_message path =
          (["Error extracting editing metadata: " ++ index_error_message], Return None)
      | _ :: _ => True
      end
  end.
Proof.
  split.
  - destruct (extract_returns fromstring TiffFile_open index_error_message path)
      as (out & r & Hr & _). eauto.
  - destruct (TiffFile_open path) as [e|tif] eqn:H.
    + now apply extract_open_fails.
    + destruct (pages tif) eqn:Hp; [|exact I].
      now apply extract_no_page with tif.
Qed.

(** C10.  Decoding with ['replace'] has a result for every byte payload,
    and the result is the payload with its ill-formed parts replaced:
    every well-formed sequence of a code point is kept as it is, in place,
    and every maximal ill-formed subpart gives one replacement character
    U+FFFD; no other text stands in that relation to the payload.  Where
    strict decoding would raise, the text holds U+FFFD; where it would
    not, the text is the one strict decoding gives.  Whatever the payload
    and the parser, [parse_xmp] returns a mapping and raises no error. *)
Theorem decode_never_fails (fromstring : string -> string + Element) (b : list byte) :
  Utf8.decode b Utf8.replace = inr (Utf8.decoded b) /\
  (forall s, Utf8.replaced b s <-> s = Utf8.decoded b) /\
  match Utf8.decode b Utf8.strict with
  | inl _ => Utf8.occurs Utf8.replacement_character (Utf8.decoded b)
  | inr s => Utf8.decoded b = s
  end /\
  exists out d, parse_xmp fromstring b = (out, Return d).
Proof.
  pose proof (decode_replace_decoded b) as Hd.
  split; [exact Hd|].
  split; [|split; [|apply parse_xmp_returns]].
  - destruct (decode_from_replaced b) as (s0 & Hs0 & Hrep).
    assert (s0 = Utf8.decoded b) by (unfold Utf8.decode in Hd; congruence).
    subst s0. intros s. split.
    + intros H. now apply (replaced_unique b s H).
    + now intros ->.
  - unfold Utf8.decode in *.
    destruct (Utf8.decode_from Utf8.strict None b) as [e|s] eqn:E.
    + destruct (decode_from_strict_error b None e E) as (s & Hs & Hocc). congruence.
    + apply decode_from_strict_ok in E. congruence.
Qed.

End Claims.

(** * Further properties of the code *)

Module Extras.
Import Dict DictFacts ETFacts Utf8Facts LoopFacts ParseFacts ExtractFacts.

(** ** Order of the entries *)

Lemma keys_set_extends (d : params) k v :
  exists new, keys (set d k v) = (keys d ++ new)%list.
Proof.
  unfold keys. induction d as [|[k0 v0] d [new IH]]; simpl.
  - now exists [k].
  - destruct (String.eqb k0 k); simpl.
    + exists []. now rewrite app_nil_r.
    + exists new. now rewrite IH.
Qed.

Lemma set_fresh (d : params) k v : ~ In k (keys d) -> set d k v = (d ++ [(k, v)])%list.
Proof.
  unfold keys. induction d as [|[k0 v0] d IH]; simpl; intros H; [reflexivity|].
  destruct (String.eqb k0 k) eqn:E.
  - apply String.eqb_eq in E. tauto.
  - rewrite IH; [reflexivity|tauto].
Qed.

Lemma extract_tone_curve_supplied desc (d : params) :
  extract_tone_curve desc d =
  match tone_curve desc with Some v => set d "ToneCurve" v | None => d end.
Proof.
  unfold extract_tone_curve, tone_curve.
  destruct (find desc (crs "ToneCurve")) as [tc|]; [|reflexivity].
  destruct (tone_curve_values tc); reflexivity.
Qed.

Lemma keys_visit_extends (acc : params) desc :
  exists new, keys (visit acc desc) = (keys acc ++ new)%list.
Proof.
  unfold visit, extract_keys.
  assert (H : forall l (d : params),
             exists new, keys (fold_left (extract_key desc) l d) = (keys d ++ new)%list).
  { induction l as [|k l IH]; intros d; simpl.
    - exists []. now rewrite app_nil_r.
    - destruct (IH (extract_key desc d k)) as [new ->].
      rewrite extract_key_setting. destruct (setting k desc) as [v|]; [|eauto].
      destruct (keys_set_extends d k v) as [new' ->].
      exists (new' ++ new)%list. now rewrite app_assoc. }
  destruct (H keys_to_extract acc) as [new Hnew].
  rewrite extract_tone_curve_supplied. destruct (tone_curve desc) as [v|]; [|eauto].
  destruct (keys_set_extends (fold_left (extract_key desc) keys_to_extract acc)
              "ToneCurve" v) as [new' ->].
  rewrite Hnew. exists (new ++ new')%list. now rewrite app_assoc.
Qed.

(** X1.  The loop never moves or removes an entry: the keys present after
    a first run of descriptions are, in the same order, the beginning of
    the keys present after any further descriptions; keys that come new
    are added behind them. *)
Theorem keys_keep_their_place (l1 l2 : list Element) (acc : params) :
  exists new,
    keys (fold_left visit (l1 ++ l2)%list acc) =
    (keys (fold_left visit l1 acc) ++ new)%list.
Proof.
  rewrite fold_left_app. generalize (fold_left visit l1 acc) as d.
  induction l2 as [|desc l2 IH]; intros d; simpl.
  - exists []. now rewrite app_nil_r.
  - destruct (IH (visit d desc)) as [new ->].
    destruct (keys_visit_extends d desc) as [new' ->].
    exists (new' ++ new)%list. now rewrite app_assoc.
Qed.

Lemma keys_app (d d' : params) : keys (d ++ d')%list = (keys d ++ keys d')%list.
Proof. unfold keys. apply map_app. Qed.

Lemma fold_extract_key_fresh desc (l : list string) :
  NoDup l -> forall d : params,
  (forall k, In k l -> ~ In k (keys d)) ->
  fold_left (extract_key desc) l d = (d ++ flat_map (entry desc) l)%list.
Proof.
  induction 1 as [|k l Hk Hnd IH]; intros d Hfresh.
  - simpl. now rewrite app_nil_r.
  - cbn [fold_left flat_map]. rewrite extract_key_setting.
    assert (He : entry desc k =
                 match setting k desc with Some v => [(k, v)] | None => [] end)
      by reflexivity.
    rewrite He. destruct (setting k desc) as [v|].
    + rewrite set_fresh by (apply Hfresh; now left).
      rewrite IH.
      * now rewrite <- app_assoc.
      * intros k' Hk' Hin. rewrite keys_app in Hin. apply in_app_or in Hin.
        destruct Hin as [Hin|[<-|[]]]; [|contradiction].
        apply (Hfresh k'); [now right|exact Hin].
    + apply IH. intros k' Hk'. apply Hfresh. now right.
Qed.

Lemma keys_settings_of desc k : In k (keys (settings_of desc)) -> In k keys_to_extract.
Proof.
  unfold settings_of, keys. generalize keys_to_extract as l.
  induction l as [|k0 l IH]; simpl; [tauto|].
  rewrite map_app, in_app_iff. intros [H|H]; [|right; auto].
  unfold entry in H. destruct (setting k0 desc); simpl in H; [|contradiction].
  destruct H as [<-|[]]. now left.
Qed.

Lemma visit_empty desc :
  visit Dict.empty desc = (settings_of desc ++ tone_curve_of desc)%list.
Proof.
  unfold visit, extract_keys.
  rewrite (fold_extract_key_fresh desc keys_to_extract NoDup_keys_to_extract Dict.empty)
    by (intros k _ []).
  change (Dict.empty ++ flat_map (entry desc) keys_to_extract)%list
    with (settings_of desc).
  rewrite extract_tone_curve_supplied. unfold tone_curve_of.
  destruct (tone_curve desc) as [v|]; [|now rewrite app_nil_r].
  apply set_fresh. intros H. apply keys_settings_of in H.
  now apply ToneCurve_not_extracted.
Qed.

(** X2.  For a document with exactly one [rdf:Description] below its
    root, the mapping [parse_xmp] returns lists the settings the
    description has a [crs:] child for, in the order of the allow-list
    whatever their order in the document, and the tone curve, if the
    description supplies one, last. *)
Theorem parse_xmp_single_description
    (fromstring : string -> string + Element) (b : list byte)
    (root desc : Element) :
  fromstring (Utf8.decoded b) = inr root ->
  descriptions root = [desc] ->
  parse_xmp fromstring b =
  ([], Return (settings_of desc ++ tone_curve_of desc)%list).
Proof.
  intros Hparse Hone. rewrite (parse_xmp_parsed fromstring b root Hparse).
  unfold collect. rewrite Hone. simpl fold_left. now rewrite visit_empty.
Qed.

Lemma parse_xmp_single_description_witness :
  parse_xmp MoreSamples.fromstring (Samples.bytes MoreSamples.single_xml) =
  ([], Return [("Exposure", VStr "0.50"); ("Contrast", VStr "25");
               ("ToneCurve", VList ["0, 0"])]).
Proof.
  etransitivity.
  - apply (parse_xmp_single_description MoreSamples.fromstring
             (Samples.bytes MoreSamples.single_xml)
             MoreSamples.single_doc MoreSamples.single_desc).
    + vm_compute. reflexivity.
    + vm_compute. reflexivity.
  - vm_compute. reflexivity.
Defined.

(** ** Which keys are present, and what they hold *)

Lemma fold_overwrite_source {A X} (f : A -> option X) (l : list A) :
  forall acc v, fold_left (overwrite f) l acc = Some v ->
  acc = Some v \/ exists a, In a l /\ f a = Some v.
Proof.
  induction l as [|a l IH]; intros acc v; simpl; [auto|].
  intros H. destruct (IH _ _ H) as [Hacc|(a' & Hin & Ha')].
  - unfold overwrite in Hacc. destruct (f a) as [x|] eqn:E; [|auto].
    right. exists a. split; [now left|congruence].
  - right. exists a'. auto.
Qed.

Lemma in_get (d : params) k v : NoDup (keys d) -> In (k, v) d -> get d k = Some v.
Proof.
  unfold keys. induction d as [|[k0 v0] d IH]; simpl; [tauto|].
  intros Hnd [[= -> ->]|Hin].
  - now rewrite String.eqb_refl.
  - inversion Hnd as [|? ? Hk Hnd']; subst.
    destruct (String.eqb k0 k) eqn:E; [|auto].
    apply String.eqb_eq in E. subst k0. exfalso. apply Hk.
    change k with (fst (k, v)). now apply in_map.
Qed.

Lemma setting_supplied key desc :
  is_some (setting key desc) = true <->
  exists c, In c (children desc) /\ tag c = crs key.
Proof.
  unfold setting. destruct (find desc (crs key)) as [c|] eqn:E; simpl.
  - split; [intros _|reflexivity]. apply find_first_child in E.
    destruct E as (before & after & Hc & Ht & _). exists c. split; [|exact Ht].
    rewrite Hc. apply in_or_app. right. now left.
  - split; [discriminate|]. intros (c & Hc & Ht). exfalso.
    now apply (proj1 (find_none desc (crs key)) E c Hc).
Qed.

Lemma key_present root key :
  In key keys_to_extract ->
  (In key (keys (collect root)) <->
   exists desc c,
     below root desc /\ tag desc = rdf "Description" /\
     In c (children desc) /\ tag c = crs key).
Proof.
  intros Hkey. unfold collect.
  rewrite in_keys_get, get_fold_visit_key by exact Hkey. simpl get.
  rewrite fold_overwrite_supplied. split.
  - intros (desc & Hin & Hs). apply in_descriptions in Hin.
    apply setting_supplied in Hs. destruct Hs as (c & Hc & Ht). exists desc, c. tauto.
  - intros (desc & c & Hb & Ht & Hc & Hc'). exists desc. split.
    + apply in_descriptions. tauto.
    + apply setting_supplied. eauto.
Qed.

Lemma tone_curve_present root :
  In "ToneCurve" (keys (collect root)) <->
  exists desc, In desc (descriptions root) /\ is_some (tone_curve desc) = true.
Proof.
  unfold collect. rewrite in_keys_get, get_fold_visit_tone_curve. simpl get.
  apply fold_overwrite_supplied.
Qed.

(** X3.  An allow-listed name is a key of the mapping [parse_xmp] returns
    exactly when some [rdf:Description] below the root has a [crs:] element
    of that name as a direct child: such an element anywhere else in the
    document (outside every description, or deeper inside one) supplies
    nothing. *)
Theorem parse_xmp_key_present
    (fromstring : string -> string + Element) (b : list byte)
    (root : Element) (key : string) :
  fromstring (Utf8.decoded b) = inr root ->
  In key keys_to_extract ->
  exists d,
    parse_xmp fromstring b = ([], Return d) /\
    (In key (keys d) <->
     exists desc c,
       below root desc /\ tag desc = rdf "Description" /\
       In c (children desc) /\ tag c = crs key).
Proof.
  intros Hparse Hkey. exists (collect root).
  split; [now apply parse_xmp_parsed|now apply key_present].
Qed.

Lemma parse_xmp_key_present_witness :
  exists d,
    parse_xmp MoreSamples.fromstring (Samples.bytes MoreSamples.single_xml) =
      ([], Return d) /\
    In "Exposure" (keys d).
Proof.
  destruct (parse_xmp_key_present MoreSamples.fromstring
              (Samples.bytes MoreSamples.single_xml) MoreSamples.single_doc "Exposure")
    as (d & Hd & Hiff).
  - vm_compute. reflexivity.
  - simpl; repeat (first [left; reflexivity | right]).
  - exists d. split; [exact Hd|]. apply Hiff.
    exists MoreSamples.single_desc, (Samples.E (crs "Exposure") (Some "0.50") []).
    split; [apply below_child; simpl; auto|].
    split; [reflexivity|]. split; [simpl; auto|reflexivity].
Defined.

(** X4.  Whatever the payload, in the mapping [parse_xmp] returns every
    allow-listed key holds a string and the key ToneCurve holds a list
    with at least one string; there is no other kind of entry. *)
Theorem parse_xmp_values_typed (fromstring : string -> string + Element) (b : list byte) :
  exists out d,
    parse_xmp fromstring b = (out, Return d) /\
    Forall (fun item =>
              (In (fst item) keys_to_extract /\ exists s, snd item = VStr s) \/
              (fst item = "ToneCurve" /\ exists p ps, snd item = VList (p :: ps)))
           (items d).
Proof.
  destruct (parse_xmp_returns fromstring b) as (out & d & Hd).
  exists out, d. split; [exact Hd|].
  pose proof (parse_xmp_NoDup fromstring b out d Hd) as Hnd.
  destruct (fromstring (Utf8.decoded b)) as [msg|root] eqn:E.
  - rewrite (parse_xmp_rejected fromstring b msg E) in Hd. injection Hd as _ <-.
    constructor.
  - rewrite (parse_xmp_parsed fromstring b root E) in Hd. injection Hd as _ <-.
    apply Forall_forall. intros [k v] Hin. simpl fst. simpl snd.
    pose proof (in_get _ k v Hnd Hin) as Hget.
    assert (Hk : allowed k).
    { pose proof (allowed_fold_visit (descriptions root) Dict.empty (Forall_nil _)) as Ha.
      rewrite Forall_forall in Ha. apply Ha. apply in_keys_get.
      unfold collect in Hget. congruence. }
    unfold collect in Hget. destruct Hk as [Hk | ->].
    + left. split; [exact Hk|].
      rewrite get_fold_visit_key in Hget by exact Hk. simpl get in Hget.
      apply fold_overwrite_source in Hget.
      destruct Hget as [Hget|(desc & _ & Hs)]; [discriminate|].
      unfold setting in Hs. destruct (find desc (crs k)); [|discriminate].
      injection Hs as <-. eauto.
    + right. split; [reflexivity|].
      rewrite get_fold_visit_tone_curve in Hget. simpl get in Hget.
      apply fold_overwrite_source in Hget.
      destruct Hget as [Hget|(desc & _ & Hs)]; [discriminate|].
      unfold tone_curve in Hs. destruct (find desc (crs "ToneCurve")) as [tc|]; [|discriminate].
      destruct (tone_curve_values tc) as [|p ps]; [discriminate|].
      injection Hs as <-. eauto.
Qed.

(** X5.  For a document that parses, [parse_xmp] returns the empty mapping
    exactly when no [rdf:Description] below the root has a [crs:] child
    with an allow-listed name and none supplies a tone curve; so it does,
    in particular, for a document without any description. *)
Theorem parse_xmp_empty
    (fromstring : string -> string + Element) (b : list byte) (root : Element) :
  fromstring (Utf8.decoded b) = inr root ->
  (parse_xmp fromstring b = ([], Return Dict.empty) <->
   forall desc, below root desc -> tag desc = rdf "Description" ->
     (forall key c, In key keys_to_extract -> In c (children desc) -> tag c <> crs key) /\
     (forall tc, first_child desc (crs "ToneCurve") tc -> tone_curve_values tc = [])).
Proof.
  intros Hparse. rewrite (parse_xmp_parsed fromstring b root Hparse).
  assert (Hempty : collect root = Dict.empty <-> forall k, ~ In k (keys (collect root))).
  { destruct (collect root) as [|[k v] d]; simpl.
    - split; [intros _ k []|reflexivity].
    - split; [discriminate|]. intros H. exfalso. apply (H k). now left. }
  split.
  - intros [= Hd0]. pose proof (proj1 Hempty Hd0) as Hd. intros desc Hb Ht. split.
    + intros key c Hkey Hc Hc'. apply (Hd key). apply key_present; [exact Hkey|].
      exists desc, c. tauto.
    + intros tc Hf. destruct (tone_curve_values tc) as [|p ps] eqn:E; [reflexivity|].
      exfalso. apply (Hd "ToneCurve"). apply tone_curve_present. exists desc. split.
      * apply in_descriptions. tauto.
      * apply find_first_child in Hf. unfold tone_curve. now rewrite Hf, E.
  - intros H. f_equal. f_equal. apply (proj2 Hempty). intros k Hk.
    assert (Ha : allowed k).
    { pose proof (allowed_fold_visit (descriptions root) Dict.empty (Forall_nil _)) as Ha.
      rewrite Forall_forall in Ha. now apply Ha. }
    destruct Ha as [Hkey | ->].
    + apply key_present in Hk; [|exact Hkey].
      destruct Hk as (desc & c & Hb & Ht & Hc & Hc').
      now apply (proj1 (H desc Hb Ht) k c).
    + apply tone_curve_present in Hk. destruct Hk as (desc & Hin & Hs).
      apply in_descriptions in Hin. destruct Hin as [Hb Ht].
      unfold tone_curve in Hs.
      destruct (find desc (crs "ToneCurve")) as [tc|] eqn:E; [|discriminate].
      apply find_first_child in E. rewrite (proj2 (H desc Hb Ht) tc E) in Hs.
      discriminate.
Qed.

Lemma parse_xmp_empty_witness :
  parse_xmp MoreSamples.fromstring (Samples.bytes MoreSamples.no_description_xml) =
  ([], Return Dict.empty).
Proof.
  apply (parse_xmp_empty MoreSamples.fromstring
           (Samples.bytes MoreSamples.no_description_xml) MoreSamples.no_description_doc).
  - vm_compute. reflexivity.
  - intros desc Hb. exfalso. apply below_in_iter in Hb. exact Hb.
Defined.

(** ** From the file to the mapping *)

Lemma find_xmp_first before t after :
  name t = "XMP" -> Forall (fun x => name x <> "XMP") before ->
  find_xmp (before ++ t :: after)%list = Some (value t).
Proof.
  intros Ht. induction 1 as [|x l Hx _ IH]; simpl.
  - now rewrite Ht.
  - destruct (String.eqb (name x) "XMP") eqn:E; [|exact IH].
    apply String.eqb_eq in E. contradiction.
Qed.

Lemma find_xmp_absent page_tags :
  find_xmp page_tags = None <-> Forall (fun t => name t <> "XMP") page_tags.
Proof.
  split; [|apply find_xmp_none].
  induction page_tags as [|t l IH]; simpl; [constructor|].
  destruct (String.eqb (name t) "XMP") eqn:E; [discriminate|].
  apply String.eqb_neq in E. intros H. constructor; auto.
Qed.

Lemma find_xmp_first_tag page_tags v :
  find_xmp page_tags = Some v <-> exists t, first_xmp page_tags t /\ value t = v.
Proof.
  split.
  - induction page_tags as [|t0 l IH]; simpl; [discriminate|].
    destruct (String.eqb (name t0) "XMP") eqn:E.
    + apply String.eqb_eq in E. intros [= <-]. exists t0. split; [|reflexivity].
      exists [], l. split; [reflexivity|]. split; [exact E|constructor].
    + apply String.eqb_neq in E. intros H.
      destruct (IH H) as (t & (before & after & -> & Ht & Hb) & Hv).
      exists t. split; [|exact Hv]. exists (t0 :: before), after.
      split; [reflexivity|]. split; [exact Ht|now constructor].
  - intros (t & (before & after & -> & Ht & Hb) & <-). now apply find_xmp_first.
Qed.

(** X6.  When the file opens and the first tag named XMP on the first
    page holds bytes, [extract_editing_metadata] hands them to
    [parse_xmp], prints what [parse_xmp] prints and returns its mapping:
    tags after that one, further tags named XMP among them, and the pages
    after the first play no part. *)
Theorem extract_first_xmp_tag
    (fromstring : string -> string + Element)
    (TiffFile_open : string -> exn + TiffFile) (index_error_message : string)
    (path : string) (tif : TiffFile) (page : TiffPage) (more : list TiffPage)
    (before : list TiffTag) (t : TiffTag) (after : list TiffTag)
    (payload : list byte) :
  TiffFile_open path = inr tif ->
  pages tif = page :: more ->
  tags page = (before ++ t :: after)%list ->
  name t = "XMP" ->
  Forall (fun x => name x <> "XMP") before ->
  value t = Bytes payload ->
  exists out d,
    parse_xmp fromstring payload = (out, Return d) /\
    extract_editing_metadata fromstring TiffFile_open index_error_message path =
    (out, Return (Some d)).
Proof.
  intros Hopen Hpages Htags Ht Hbefore Hv.
  destruct (parse_xmp_returns fromstring payload) as (out & d & Hd).
  exists out, d. split; [exact Hd|].
  apply (extract_xmp _ _ _ path tif page more payload out d Hopen Hpages); [|exact Hd].
  rewrite Htags, <- Hv. now apply find_xmp_first.
Qed.

Lemma extract_first_xmp_tag_witness :
  extract_editing_metadata MoreSamples.fromstring MoreSamples.TiffFile_open
    Samples.index_error_message "two.tif" =
  ([], Return (Some [("Exposure", VStr "0.50"); ("Contrast", VStr "25");
                     ("ToneCurve", VList ["0, 0"])])).
Proof.
  destruct (extract_first_xmp_tag MoreSamples.fromstring MoreSamples.TiffFile_open
              Samples.index_error_message "two.tif" MoreSamples.tiff_two_xmp
              {| tags := [ {| name := "ImageWidth"; value := Bytes [] |};
                           {| name := "XMP";
                              value := Bytes (Samples.bytes MoreSamples.single_xml) |};
                           {| name := "XMP";
                              value := Bytes (Samples.bytes Samples.contrast_xml) |} ] |}
              [ {| tags := [ {| name := "XMP";
                                value := Bytes (Samples.bytes Samples.curve_xml) |} ] |} ]
              [ {| name := "ImageWidth"; value := Bytes [] |} ]
              {| name := "XMP"; value := Bytes (Samples.bytes MoreSamples.single_xml) |}
              [ {| name := "XMP"; value := Bytes (Samples.bytes Samples.contrast_xml) |} ]
              (Samples.bytes MoreSamples.single_xml))
    as (out & d & Hd & Hx).
  - reflexivity.
  - reflexivity.
  - reflexivity.
  - reflexivity.
  - repeat constructor. simpl. discriminate.
  - reflexivity.
  - rewrite Hx.
    assert (E : parse_xmp MoreSamples.fromstring
                  (Samples.bytes MoreSamples.single_xml) =
                ([], Return [("Exposure", VStr "0.50"); ("Contrast", VStr "25");
                             ("ToneCurve", VList ["0, 0"])]))
      by (vm_compute; reflexivity).
    rewrite E in Hd. injection Hd as <- <-. reflexivity.
Defined.

(** X7.  [extract_editing_metadata] returns [None] exactly when the file
    cannot be opened, has no page, has no tag named XMP on its first page,
    or the first such tag holds something other than bytes (a [str], for
    a tag of ASCII type); in every other case, that of a payload the
    parser rejects included, it returns a mapping. *)
Theorem extract_absent_iff
    (fromstring : string -> string + Element)
    (TiffFile_open : string -> exn + TiffFile) (index_error_message : string)
    (path : string) :
  exists out r,
    extract_editing_metadata fromstring TiffFile_open index_error_message path =
      (out, Return r) /\
    (r = None <->
     match TiffFile_open path with
     | inl _ => True
     | inr tif =>
         match pages tif with
         | [] => True
         | page :: _ =>
             forall t payload, first_xmp (tags page) t -> value t <> Bytes payload
         end
     end).
Proof.
  destruct (TiffFile_open path) as [e|tif] eqn:H.
  - rewrite (extract_open_fails _ _ _ path e H). do 2 eexists. split; [reflexivity|tauto].
  - destruct (pages tif) as [|page more] eqn:Hp.
    + rewrite (extract_no_page _ _ _ path tif H Hp).
      do 2 eexists. split; [reflexivity|tauto].
    + destruct (find_xmp (tags page)) as [[xmp_data|msg]|] eqn:Hx.
      * destruct (parse_xmp_returns fromstring xmp_data) as (out & d & Hparse).
        rewrite (extract_xmp _ _ _ path tif page more xmp_data out d H Hp Hx Hparse).
        exists out, (Some d). split; [reflexivity|].
        split; [discriminate|]. intros Hall. exfalso.
        apply find_xmp_first_tag in Hx. destruct Hx as (t & Ht & Hv).
        now apply (Hall t xmp_data Ht).
      * rewrite (extract_not_bytes _ _ _ path tif page more msg H Hp Hx).
        do 2 eexists. split; [reflexivity|].
        split; [|reflexivity]. intros _ t payload Ht Hv.
        assert (Hf : find_xmp (tags page) = Some (Bytes payload))
          by (apply find_xmp_first_tag; eauto).
        congruence.
      * rewrite (extract_no_xmp _ _ _ path tif page more H Hp Hx).
        do 2 eexists. split; [reflexivity|].
        split; [|reflexivity]. intros _ t payload Ht Hv.
        assert (Hf : find_xmp (tags page) = Some (Bytes payload))
          by (apply find_xmp_first_tag; eauto).
        congruence.
Qed.

(** ** What the mapping does not depend on *)

Lemma tag_strip e : tag (strip e) = tag e.
Proof. now destruct e. Qed.

Lemma text_strip e : text (strip e) = text e.
Proof. now destruct e. Qed.

Lemma children_strip e : children (strip e) = map strip (children e).
Proof. now destruct e. Qed.

Lemma iter_strip e : iter (strip e) = map strip (iter e).
Proof.
  induction e as [t a x tl cs IH] using Element_tree_ind.
  change (strip (mkElement t a x tl cs) :: flat_map iter (map strip cs) =
          strip (mkElement t a x tl cs) :: map strip (flat_map iter cs)).
  f_equal. induction IH as [|c cs Hc _ IHcs]; simpl; [reflexivity|].
  now rewrite map_app, Hc, IHcs.
Qed.

Lemma has_tag_strip t e : has_tag t (strip e) = has_tag t e.
Proof. unfold has_tag. now rewrite tag_strip. Qed.

Lemma filter_has_tag_strip t l :
  filter (has_tag t) (map strip l) = map strip (filter (has_tag t) l).
Proof.
  induction l as [|e l IH]; simpl; [reflexivity|].
  rewrite has_tag_strip. destruct (has_tag t e); simpl; now rewrite IH.
Qed.

Lemma findall_descendants_strip e t :
  findall_descendants (strip e) t = map strip (findall_descendants e t).
Proof.
  unfold findall_descendants. rewrite <- filter_has_tag_strip. f_equal.
  rewrite children_strip.
  induction (children e) as [|c cs IH]; simpl; [reflexivity|].
  now rewrite map_app, iter_strip, IH.
Qed.

Lemma find_strip e t : find (strip e) t = option_map strip (find e t).
Proof.
  unfold find. rewrite children_strip.
  induction (children e) as [|c cs IH]; simpl; [reflexivity|].
  rewrite has_tag_strip. destruct (has_tag t c); [reflexivity|exact IH].
Qed.

Lemma texts_strip l : texts (map strip l) = texts l.
Proof.
  induction l as [|e l IH]; simpl; [reflexivity|].
  rewrite text_strip, IH. reflexivity.
Qed.

Lemma visit_strip acc desc : visit acc (strip desc) = visit acc desc.
Proof.
  unfold visit, extract_keys, extract_tone_curve, tone_curve_values.
  rewrite find_strip.
  assert (Hkeys : forall l (d : params),
            fold_left (extract_key (strip desc)) l d = fold_left (extract_key desc) l d).
  { induction l as [|k l IH]; intros d; simpl; [reflexivity|].
    rewrite IH. f_equal. unfold extract_key, findtext. rewrite find_strip.
    destruct (find desc (crs k)) as [c|]; simpl; [|reflexivity].
    now rewrite text_strip. }
  rewrite Hkeys.
  destruct (find desc (crs "ToneCurve")) as [tc|]; simpl; [|reflexivity].
  now rewrite findall_descendants_strip, texts_strip.
Qed.

Lemma collect_strip root : collect (strip root) = collect root.
Proof.
  unfold collect, descriptions. rewrite findall_descendants_strip.
  generalize (findall_descendants root (rdf "Description")) as l.
  generalize (Dict.empty : params) as acc.
  intros acc l. revert acc. induction l as [|d l IH]; intros acc; simpl; [reflexivity|].
  now rewrite visit_strip, IH.
Qed.

(** X8.  [parse_xmp] reads no attribute and no tail text: two payloads
    whose documents differ in attributes and tails only give the same
    result.  In particular a setting written as an attribute of an
    [rdf:Description] is not extracted. *)
Theorem parse_xmp_ignores_attributes
    (fromstring : string -> string + Element) (b b' : list byte)
    (root root' : Element) :
  fromstring (Utf8.decoded b) = inr root ->
  fromstring (Utf8.decoded b') = inr root' ->
  strip root = strip root' ->
  parse_xmp fromstring b = parse_xmp fromstring b'.
Proof.
  intros H H' Hsame.
  rewrite (parse_xmp_parsed fromstring b root H), (parse_xmp_parsed fromstring b' root' H').
  now rewrite <- (collect_strip root), Hsame, collect_strip.
Qed.

Lemma parse_xmp_ignores_attributes_witness :
  parse_xmp MoreSamples.fromstring (Samples.bytes MoreSamples.attribute_xml) =
  parse_xmp MoreSamples.fromstring (Samples.bytes MoreSamples.bare_xml).
Proof.
  apply (parse_xmp_ignores_attributes MoreSamples.fromstring
           (Samples.bytes MoreSamples.attribute_xml) (Samples.bytes MoreSamples.bare_xml)
           MoreSamples.attribute_doc MoreSamples.bare_doc).
  - vm_compute. reflexivity.
  - vm_compute. reflexivity.
  - reflexivity.
Defined.

(** ** Decoding plain text *)

Lemma decode_from_ascii h bs :
  ascii_only bs -> Utf8.decode_from h None bs = inr (string_of_list_byte bs).
Proof.
  induction 1 as [|b bs Hb _ IH]; simpl; [reflexivity|].
  unfold Utf8.start. rewrite Hb, IH. reflexivity.
Qed.

(** X9.  A payload made of bytes below 80 decodes, under either error
    handler, to the text with the same bytes, and [parse_xmp] hands that
    text to the parser: no replacement character comes in. *)
Theorem parse_xmp_ascii
    (fromstring : string -> string + Element) (b : list byte) :
  ascii_only b ->
  Utf8.decode b Utf8.strict = inr (string_of_list_byte b) /\
  Utf8.decode b Utf8.replace = inr (string_of_list_byte b) /\
  parse_xmp fromstring b =
  match fromstring (string_of_list_byte b) with
  | inl msg => (["Error parsing XMP metadata: " ++ msg], Return Dict.empty)
  | inr root => ([], Return (collect root))
  end.
Proof.
  intros Hb.
  pose proof (decode_from_ascii Utf8.replace b Hb) as Hr.
  split; [now apply decode_from_ascii|]. split; [exact Hr|].
  assert (Hd : Utf8.decoded b = string_of_list_byte b).
  { unfold Utf8.decoded, Utf8.decode. now rewrite Hr. }
  destruct (fromstring (string_of_list_byte b)) as [msg|root] eqn:E.
  - apply parse_xmp_rejected. now rewrite Hd.
  - apply parse_xmp_parsed. now rewrite Hd.
Qed.

Lemma parse_xmp_ascii_witness :
  parse_xmp Samples.fromstring (Samples.bytes Samples.contrast_xml) =
  ([], Return [("Contrast", VStr "25")]).
Proof.
  destruct (parse_xmp_ascii Samples.fromstring (Samples.bytes Samples.contrast_xml))
    as (_ & _ & H).
  - vm_compute. repeat constructor.
  - rewrite H. vm_compute. reflexivity.
Defined.

End Extras.
